(** * Aural Landscapes: breakpoint envelopes, oscillators and the audio player

    A shallow embedding of [breakpoints.c], [oscillator.c] and
    [audio_player.c], and of the parts of [main.c] and [image.c] that turn
    a region of the picture into the numbers of a note, with the
    properties of the synthesis engine stated over it.

    Conventions of the embedding.
    - A C [float] is an exact rational ([Q]), kept in lowest terms by every
      operation; rounding, infinities and NaN are outside the model.
    - The [int] fields an oscillator computes with ([curr_sample], [index],
      [inc]) are integers in the signed 32-bit range: what is stored into
      them is reduced to that range ([wrap32]).  Ids, lengths and loop
      counters are plain integers.
    - An array is a [list]; reading it outside its allocation does not stop
      the program but yields an indeterminate value ([Garbage]).
    - The linked list of oscillators lives in a heap of nodes addressed by
      [loc]; [NULL] is [None], [malloc] takes a fresh address and [free]
      deletes the node.  A function that walks the list takes the number of
      steps it may make ([fuel]) and returns [None] when it would follow a
      dangling pointer or needs more steps.
    - The mutex and every access to the list leave an event in a trace. *)

From Stdlib Require Import ZArith QArith Qround Lia Lqa String Ascii List.
From stdpp Require Import base option list gmap.

Local Open Scope Z_scope.

(** ** C numbers *)

Module cnum.

Definition INT_MAX : Z := 2147483647.
Definition INT_MIN : Z := -2147483648.

(** Reduction of an integer to the signed 32-bit range. *)
Definition wrap32 (z : Z) : Z := (z + 2147483648) mod 4294967296 - 2147483648.

Definition in_int (z : Z) : Prop := INT_MIN <= z <= INT_MAX.

(** [float] arithmetic. *)
Definition fadd (a b : Q) : Q := Qred (a + b).
Definition fsub (a b : Q) : Q := Qred (a - b).
Definition fmul (a b : Q) : Q := Qred (a * b).
Definition fdiv (a b : Q) : Q := Qred (a / b).
Definition fneg (a : Q) : Q := Qred (- a).

(** [a < b], [a > b] and [a != b] on floats. *)
Definition fltb (a b : Q) : bool := negb (Qle_bool b a).
Definition fgtb (a b : Q) : bool := fltb b a.
Definition fneb (a b : Q) : bool := negb (Qeq_bool a b).

(** Conversion [int -> float]. *)
Definition float_of_int (z : Z) : Q := inject_Z z.

(** Conversion [float -> int]: the fraction is discarded (truncation
    toward zero). *)
Definition Qtrunc (q : Q) : Z := Z.quot (Qnum q) (Zpos (Qden q)).
Definition int_of_float (q : Q) : Z := wrap32 (Qtrunc q).

End cnum.
Import cnum.

(** A value handed back by a function that may have read outside an array. *)
Inductive sample : Type :=
  | Amp (v : Q)
  | Garbage.

Definition sample_of (o : option Q) : sample :=
  match o with Some v => Amp v | None => Garbage end.

(** [a * b] and [a + b] where an operand may be indeterminate. *)
Definition sample_mul (a b : sample) : sample :=
  match a, b with
  | Amp x, Amp y => Amp (fmul x y)
  | _, _ => Garbage
  end.

Definition sample_add (a b : sample) : sample :=
  match a, b with
  | Amp x, Amp y => Amp (fadd x y)
  | _, _ => Garbage
  end.

(** ** breakpoints.c *)

Module breakpoints.

Record Breakpoint : Type := mkBreakpoint { time : Q; val : Q }.

(** [len] is the number of elements of the allocation [list]. *)
Record Breakpoints : Type := mkBreakpoints {
  list : list Breakpoint;
  maxtime : Q
}.

Definition len (bp : Breakpoints) : Z := Z.of_nat (length (list bp)).

(** [bp->list[i]] *)
Definition list_at (bp : Breakpoints) (i : Z) : option Breakpoint :=
  if i <? 0 then None else list bp !! Z.to_nat i.

(** What a call returns and what it printed on the way. *)
Record reply : Type := mkReply { printed : option string; returned : sample }.

Definition msg_negative_time : string :=
  "Can't read a negative time value from a breakpoint list".
Definition msg_empty_list : string :=
  "Reading value from empty breakpoint list".

(** The [for] loop of [get_timeval], entered with counter [i]:
    [for(; i < bp->len-1; i++) if(bp->list[i+1].time > time) break;]
    The result is the counter at loop exit. *)
Fixpoint scan_loop (fuel : nat) (bp : Breakpoints) (t : Q) (i : Z) : option Z :=
  match fuel with
  | O => None
  | S fuel' =>
      if i <? len bp - 1 then
        nxt ← list_at bp (i + 1);
        if fgtb (time nxt) t then Some i
        else scan_loop fuel' bp t (i + 1)
      else Some i
  end.

(** The part of [get_timeval] after the loop. *)
Definition after_loop (bp : Breakpoints) (t : Q) (i : Z) : option Q :=
  if i =? len bp then
    cur ← list_at bp i; Some (val cur)
  else
    nxt ← list_at bp (i + 1);
    cur ← list_at bp i;
    let dt := fsub (time nxt) (time cur) in
    let da := fsub (val nxt) (val cur) in
    let frac := fdiv (fsub t (time cur)) dt in
    Some (fadd (val cur) (fmul da frac)).

Definition get_timeval (bp : Breakpoints) (t : Q) : reply :=
  if fltb t 0 then
    {| printed := Some msg_negative_time; returned := Amp 0 |}
  else if len bp =? 0 then
    {| printed := Some msg_empty_list; returned := Amp 0 |}
  else
    {| printed := None;
       returned := sample_of (scan_loop (length (list bp)) bp t 0
                                ≫= after_loop bp t) |}.

Definition get_percentval (bp : Breakpoints) (percentage : Q) : reply :=
  get_timeval bp (fmul (maxtime bp) percentage).

(** *** Loading a breakpoint file *)

Definition newline : ascii := "010"%char.

(** [fgets] reading at most [n] characters of the stream [s], up to and
    including the first newline: the characters read and the rest. *)
Fixpoint fgets_chars (n : nat) (s : string) : string * string :=
  match n, s with
  | S n', String c s' =>
      if Ascii.eqb c newline then (String c EmptyString, s')
      else let '(l, r) := fgets_chars n' s' in (String c l, r)
  | _, _ => (EmptyString, s)
  end.

(** [fgets(line, size, file)]: [None] is the [NULL] of end of file. *)
Definition fgets (size : nat) (file : string) : option (string * string) :=
  match file with
  | EmptyString => None
  | _ => Some (fgets_chars (size - 1) file)
  end.

(** Why [load_bp_file] returned [NULL]. *)
Inductive load_error : Type :=
  | ScanError (line : string)
  | FirstTimeNotZero
  | TimesMustIncrease.

Inductive load_result : Type :=
  | Loaded (bp : Breakpoints)
  | Null (why : load_error)
  | NoReturn.

Definition is_null (r : load_result) : bool :=
  match r with Null _ => true | _ => false end.

Section load.

(** [sscanf(line, "%f, %f\n", &time, &val)] of the C library:
    [Some (time, val)] when it returns 2, [None] otherwise. *)
Variable sscanf_ff : string → option (Q * Q).

(** The [while(fgets(line, 255, file))] loop; [l] holds the [count]
    breakpoints stored so far and [t] is the local [time].  The allocation
    is taken to succeed. *)
Fixpoint load_loop (fuel : nat) (file : string) (l : Datatypes.list Breakpoint) (t : Q)
    : load_result :=
  match fuel with
  | O => NoReturn
  | S fuel' =>
      match fgets 255 file with
      | None => Loaded {| list := l; maxtime := t |}
      | Some (line, rest) =>
          match sscanf_ff line with
          | None => Null (ScanError line)
          | Some (t', v') =>
              match last l with
              | None => (* count == 0 *)
                  if fneb t' 0 then Null FirstTimeNotZero
                  else load_loop fuel' rest (l ++ [mkBreakpoint t' v']) t'
              | Some b => (* count > 0, b is list[count-1] *)
                  if fltb t' (time b) then Null TimesMustIncrease
                  else load_loop fuel' rest (l ++ [mkBreakpoint t' v']) t'
              end
          end
      end
  end.

(** [uninit] is the indeterminate initial content of the local [time]. *)
Definition load_bp_file (uninit : Q) (file : string) : load_result :=
  load_loop (S (String.length file)) file [] uninit.

(** The lines successive [fgets] calls hand out. *)
Fixpoint lines_of (fuel : nat) (file : string) : Datatypes.list string :=
  match fuel with
  | O => []
  | S fuel' =>
      match fgets 255 file with
      | None => []
      | Some (line, rest) => line :: lines_of fuel' rest
      end
  end.

Definition file_lines (file : string) : Datatypes.list string :=
  lines_of (S (String.length file)) file.

End load.

(** A scanner for lines written in plain decimal notation
    ([-12.5, 0.25]), on which it does what [sscanf] with the format
    ["%f, %f\n"] does; it stands for [sscanf] in the examples. *)
Module decimal.

Definition is_space (c : ascii) : bool :=
  let n := nat_of_ascii c in ((9 <=? n) && (n <=? 13))%nat || (n =? 32)%nat.

Definition digit_of (c : ascii) : option Z :=
  let n := nat_of_ascii c in
  if ((48 <=? n) && (n <=? 57))%nat then Some (Z.of_nat n - 48) else None.

Fixpoint skip_space (s : string) : string :=
  match s with
  | String c s' => if is_space c then skip_space s' else s
  | EmptyString => s
  end.

(** Digits at the front of [s]: their value after [acc], how many there
    are, and the rest. *)
Fixpoint digits (s : string) (acc : Z) (k : nat) : Z * nat * string :=
  match s with
  | String c s' =>
      match digit_of c with
      | Some d => digits s' (10 * acc + d) (S k)
      | None => (acc, k, s)
      end
  | EmptyString => (acc, k, s)
  end.

Definition unsigned (s : string) : option (Q * string) :=
  let '(ip, k1, s1) := digits s 0 O in
  match s1 with
  | String "."%char s2 =>
      let '(fp, k2, s3) := digits s2 0 O in
      if (k1 + k2 =? 0)%nat then None
      else Some (fadd (inject_Z ip) (fdiv (inject_Z fp) (inject_Z (10 ^ Z.of_nat k2))), s3)
  | _ => if (k1 =? 0)%nat then None else Some (inject_Z ip, s1)
  end.

(** [%f] *)
Definition float (s : string) : option (Q * string) :=
  match skip_space s with
  | String "-"%char s' => '(q, r) ← unsigned s'; Some (fneg q, r)
  | String "+"%char s' => unsigned s'
  | s' => unsigned s'
  end.

Definition sscanf_ff (line : string) : option (Q * Q) :=
  '(t, r) ← float line;
  match r with
  | String ","%char r' => '(v, _) ← float r'; Some (t, v)
  | _ => None
  end.

End decimal.

End breakpoints.

(** ** oscillator.c *)

Module oscillator.

Import breakpoints.

Record Oscillator : Type := mkOscillator {
  id : Z;
  tab : Datatypes.list Q;
  tablen : Z;
  vol_bp : Breakpoints;
  freq : Q;
  amplitude : Q;
  slength : Q;
  samplerate : Z;
  curr_sample : Z;
  curr_t : Q;
  index : Z;
  inc : Z;
  tinc : Q
}.

(** [osc->tab[i]] *)
Definition tab_at (osc : Oscillator) (i : Z) : sample :=
  if i <? 0 then Garbage else sample_of (tab osc !! Z.to_nat i).

(** [freq * tablen / samplerate], stored into an [int]. *)
Definition increment (fr : Q) (tl sr : Z) : Z :=
  int_of_float (fdiv (fmul fr (float_of_int tl)) (float_of_int sr)).

Definition new_osc (id_ : Z) (tab_ : Datatypes.list Q) (tablen_ : Z)
    (vol_bp_ : Breakpoints) (samplerate_ : Z) (freq_ amplitude_ length_ waittime : Q)
    : Oscillator :=
  {| id := id_;
     tab := tab_;
     tablen := tablen_;
     vol_bp := vol_bp_;
     freq := freq_;
     amplitude := amplitude_;
     slength := fmul length_ (float_of_int samplerate_);
     samplerate := samplerate_;
     curr_sample := int_of_float (fmul (fneg waittime) (float_of_int samplerate_));
     curr_t := 0;
     index := 0;
     inc := increment freq_ tablen_ samplerate_;
     tinc := fdiv 1 (float_of_int samplerate_) |}.

(** [osc->curr_sample < 0 || osc->curr_sample > osc->slength] *)
Definition out_of_range (osc : Oscillator) : bool :=
  (curr_sample osc <? 0) || fgtb (float_of_int (curr_sample osc)) (slength osc).

(** [osc->curr_sample++] *)
Definition bump_sample (osc : Oscillator) : Oscillator :=
  {| id := id osc; tab := tab osc; tablen := tablen osc; vol_bp := vol_bp osc;
     freq := freq osc; amplitude := amplitude osc; slength := slength osc;
     samplerate := samplerate osc;
     curr_sample := wrap32 (curr_sample osc + 1);
     curr_t := curr_t osc; index := index osc; inc := inc osc; tinc := tinc osc |}.

(** The three stores of the active branch: [inc], [index] and [curr_t]. *)
Definition advance_phase (osc : Oscillator) : Oscillator :=
  let inc' := increment (freq osc) (tablen osc) (samplerate osc) in
  let i1 := wrap32 (index osc + inc') in
  let i2 := if i1 >? tablen osc then wrap32 (i1 - tablen osc) else i1 in
  {| id := id osc; tab := tab osc; tablen := tablen osc; vol_bp := vol_bp osc;
     freq := freq osc; amplitude := amplitude osc; slength := slength osc;
     samplerate := samplerate osc;
     curr_sample := curr_sample osc;
     curr_t := fadd (curr_t osc) (tinc osc);
     index := i2; inc := inc'; tinc := tinc osc |}.

(** The oscillator after the call and the amplitude returned.  What
    [get_percentval] may print is not recorded here. *)
Definition oscil_tick (osc : Oscillator) : Oscillator * sample :=
  if out_of_range osc then (bump_sample osc, Amp 0)
  else
    let osc1 := bump_sample osc in
    let v := sample_mul (Amp (amplitude osc1)) (tab_at osc1 (index osc1)) in
    let osc2 := advance_phase osc1 in
    let perc := fdiv (float_of_int (curr_sample osc2)) (slength osc2) in
    let amp := returned (get_percentval (vol_bp osc2) perc) in
    (osc2, sample_mul v amp).

Definition oscil_expired (osc : Oscillator) : bool :=
  if fgtb (float_of_int (curr_sample osc)) (slength osc) then true else false.

(** The oscillator after [n] calls of [oscil_tick]. *)
Fixpoint ticked (n : nat) (osc : Oscillator) : Oscillator :=
  match n with
  | O => osc
  | S n' => fst (oscil_tick (ticked n' osc))
  end.

(** The table of [gen_square_tab(len)]: [len/2] entries 1, then -1 up to
    [len]. *)
Definition gen_square_tab (len : Z) : Datatypes.list Q :=
  repeat 1%Q (Z.to_nat (len `quot` 2)) ++
  repeat (-1)%Q (Z.to_nat (len - len `quot` 2)).

(** The table of [gen_triangle_tab(len)]: a ramp up over the entries below
    [len/2], a ramp down from [len/2] on. *)
Definition gen_triangle_tab (len : Z) : Datatypes.list Q :=
  (λ i : Z,
     if i <? len `quot` 2
     then fadd (float_of_int (-1))
               (fdiv (float_of_int (wrap32 (2 * i)))
                     (float_of_int (len `quot` 2 - 1)))
     else fsub (float_of_int 1)
               (fdiv (float_of_int (wrap32 (2 * (i - len `quot` 2))))
                     (float_of_int (len `quot` 2))))
  <$> seqZ 0 len.

(** *** The linked list *)

Definition loc : Type := positive.

Record OscilNode : Type := mkOscilNode {
  next : option loc;
  prev : option loc;
  osc : Oscillator
}.

Definition set_next (v : option loc) (n : OscilNode) : OscilNode :=
  {| next := v; prev := prev n; osc := osc n |}.
Definition set_prev (v : option loc) (n : OscilNode) : OscilNode :=
  {| next := next n; prev := v; osc := osc n |}.
Definition set_osc (o : Oscillator) (n : OscilNode) : OscilNode :=
  {| next := next n; prev := prev n; osc := o |}.

(** A store through a node pointer; [None] when the pointer does not
    address a live node. *)
Definition store (f : OscilNode → OscilNode) (p : loc)
    (h : gmap loc OscilNode) : option (gmap loc OscilNode) :=
  n ← h !! p; Some (<[p := f n]> h).

(** [if(q) q->field = v;] *)
Definition store_if (f : OscilNode → OscilNode) (q : option loc)
    (h : gmap loc OscilNode) : option (gmap loc OscilNode) :=
  match q with
  | Some p => store f p h
  | None => Some h
  end.

(** [while(curr->next != NULL) curr = curr->next;] *)
Fixpoint last_node (fuel : nat) (h : gmap loc OscilNode) (curr : loc) : option loc :=
  match fuel with
  | O => None
  | S fuel' =>
      n ← h !! curr;
      match next n with
      | None => Some curr
      | Some nx => last_node fuel' h nx
      end
  end.

(** The heap and [*head] after the call.  [None]: the call dereferences a
    dangling pointer or does not return within [fuel] steps of its loop. *)
Definition oscil_list_add (fuel : nat) (h : gmap loc OscilNode) (head : option loc)
    (o : Oscillator) : option (gmap loc OscilNode * option loc) :=
  let node := fresh (dom h) in
  match head with
  | None => Some (<[node := mkOscilNode None None o]> h, Some node)
  | Some hd =>
      curr ← last_node fuel h hd;
      h1 ← store (set_next (Some node)) curr h;
      Some (<[node := mkOscilNode None (Some curr) o]> h1, head)
  end.

(** The [while] loop of [oscil_list_remove]. *)
Fixpoint remove_loop (fuel : nat) (h : gmap loc OscilNode) (curr : option loc)
    (id_ : Z) : option (gmap loc OscilNode) :=
  match fuel with
  | O => None
  | S fuel' =>
      match curr with
      | None => Some h
      | Some c =>
          n ← h !! c;
          if id (osc n) =? id_ then
            h1 ← store_if (set_next (next n)) (prev n) h;
            h2 ← store_if (set_prev (prev n)) (next n) h1;
            Some (delete c h2)
          else remove_loop fuel' h (next n) id_
      end
  end.

Definition oscil_list_remove (fuel : nat) (h : gmap loc OscilNode)
    (head : option loc) (id_ : Z) : option (gmap loc OscilNode * option loc) :=
  match head with
  | None => Some (h, head)
  | Some c =>
      n ← h !! c;
      if id (osc n) =? id_ then
        h1 ← store_if (set_prev None) (next n) h;
        Some (delete c h1, next n)
      else
        h' ← remove_loop fuel h (Some c) id_;
        Some (h', head)
  end.

(** [oscil_list_free(head)]: every node from [head] on is freed with its
    oscillator. *)
Fixpoint oscil_list_free (fuel : nat) (h : gmap loc OscilNode) (head : option loc)
    : option (gmap loc OscilNode) :=
  match fuel with
  | O => None
  | S fuel' =>
      match head with
      | None => Some h
      | Some c =>
          n ← h !! c;
          let temp := next n in
          oscil_list_free fuel' (delete c h) temp
      end
  end.

End oscillator.

(** ** audio_player.c *)

Module audio_player.

Import breakpoints oscillator.

(** What a function does to the mutex and to the oscillator list, in
    program order: [Access] is one read or write of [player->osc_list] or
    of a node reached from it. *)
Inductive event : Type := Lock | Unlock | Access.

Record AudioPlayer : Type := mkAudioPlayer {
  osc_list : option loc;
  osc_list_lock : bool;
  write_output : bool;
  outfile : Datatypes.list sample;
  samplerate : Z
}.

(** The heap of list nodes, the player and the events so far. *)
Record world : Type := mkWorld {
  mem : gmap loc OscilNode;
  player : AudioPlayer;
  trace : Datatypes.list event
}.

Definition log (e : event) (w : world) : world :=
  {| mem := mem w; player := player w; trace := trace w ++ [e] |}.

Definition set_lock (b : bool) (w : world) : world :=
  {| mem := mem w;
     player := {| osc_list := osc_list (player w); osc_list_lock := b;
                  write_output := write_output (player w);
                  outfile := outfile (player w);
                  samplerate := samplerate (player w) |};
     trace := trace w |}.

Definition pthread_mutex_lock (w : world) : world := log Lock (set_lock true w).
Definition pthread_mutex_unlock (w : world) : world := log Unlock (set_lock false w).

(** The list after a call that changed the heap and [player->osc_list]. *)
Definition set_list (h : gmap loc OscilNode) (hd : option loc) (w : world) : world :=
  log Access
    {| mem := h;
       player := {| osc_list := hd; osc_list_lock := osc_list_lock (player w);
                    write_output := write_output (player w);
                    outfile := outfile (player w);
                    samplerate := samplerate (player w) |};
       trace := trace w |}.

(** [sf_write_float(player->outfile, out, framesPerBuffer)] *)
Definition sf_write_float (out : Datatypes.list sample) (w : world) : world :=
  {| mem := mem w;
     player := {| osc_list := osc_list (player w);
                  osc_list_lock := osc_list_lock (player w);
                  write_output := write_output (player w);
                  outfile := outfile (player w) ++ out;
                  samplerate := samplerate (player w) |};
     trace := trace w |}.

Definition add_osc (fuel : nat) (w : world) (id_ : Z) (tab_ : Datatypes.list Q)
    (tablen_ : Z) (bp : Breakpoints) (freq_ amplitude_ length_ waittime : Q)
    : option world :=
  let w1 := pthread_mutex_lock w in
  let o := new_osc id_ tab_ tablen_ bp (samplerate (player w1))
                   freq_ amplitude_ length_ waittime in
  '(h, hd) ← oscil_list_add fuel (mem w1) (osc_list (player w1)) o;
  Some (pthread_mutex_unlock (set_list h hd w1)).

(** The inner [while] loop of the callback:
    [while(curr != NULL) { val += oscil_tick(curr->osc); curr = curr->next; }] *)
Fixpoint tick_all (fuel : nat) (w : world) (curr : option loc) (v : sample)
    : option (world * sample) :=
  match fuel with
  | O => None
  | S fuel' =>
      match curr with
      | None => Some (w, v)
      | Some c =>
          n ← mem w !! c;
          let '(o', a) := oscil_tick (osc n) in
          let w' := log Access {| mem := <[c := set_osc o' n]> (mem w);
                                  player := player w; trace := trace w |} in
          tick_all fuel' w' (next n) (sample_add v a)
      end
  end.

(** The outer [for] loop of the callback; the result lists [out[0]],
    [out[1]], ... *)
Fixpoint render (fuel : nat) (frames : nat) (w : world)
    : option (world * Datatypes.list sample) :=
  match frames with
  | O => Some (w, [])
  | S frames' =>
      '(w1, v) ← tick_all fuel (log Access w) (osc_list (player w)) (Amp 0);
      '(w2, out) ← render fuel frames' w1;
      Some (w2, v :: out)
  end.

Definition audio_player_callback (fuel : nat) (w : world) (framesPerBuffer : nat)
    : option (world * Datatypes.list sample) :=
  let w1 := pthread_mutex_lock w in
  '(w2, out) ← render fuel framesPerBuffer w1;
  let w3 := pthread_mutex_unlock w2 in
  let w4 := if write_output (player w3) then sf_write_float out w3 else w3 in
  Some (w4, out).

(** The [while] loop of [synch_update]. *)
Fixpoint synch_loop (fuel inner : nat) (w : world) (curr : option loc) : option world :=
  match fuel with
  | O => None
  | S fuel' =>
      match curr with
      | None => Some w
      | Some c =>
          n ← mem w !! c;
          let w0 := log Access w in
          if oscil_expired (osc n) then
            let temp := next n in
            '(h, hd) ← oscil_list_remove inner (mem w0) (osc_list (player w0))
                                         (id (osc n));
            synch_loop fuel' inner (set_list h hd w0) temp
          else synch_loop fuel' inner w0 (next n)
      end
  end.

Definition synch_update (fuel : nat) (w : world) : option world :=
  synch_loop fuel fuel (log Access w) (osc_list (player w)).

(** Replay of a trace: no [Access] happens while the mutex is not held. *)
Fixpoint guarded (held : bool) (tr : Datatypes.list event) : bool :=
  match tr with
  | [] => true
  | Lock :: tr' => guarded true tr'
  | Unlock :: tr' => guarded false tr'
  | Access :: tr' => held && guarded held tr'
  end.

(** The [while] loop of [free_audio_player]. *)
Fixpoint free_loop (fuel inner : nat) (w : world) (curr : option loc) : option world :=
  match fuel with
  | O => None
  | S fuel' =>
      match curr with
      | None => Some w
      | Some c =>
          n ← mem w !! c;
          let w0 := log Access w in
          let temp := next n in
          '(h, hd) ← oscil_list_remove inner (mem w0) (osc_list (player w0))
                                       (id (osc n));
          free_loop fuel' inner (set_list h hd w0) temp
      end
  end.

(** [free_audio_player], as far as the oscillator list goes; closing the
    file and the stream is left to the libraries. *)
Definition free_audio_player (fuel : nat) (w : world) : option world :=
  free_loop fuel fuel (log Access w) (osc_list (player w)).

End audio_player.

(** ** main.c: the numbers of a note *)

Module main.

Definition SAMPLE_RATE : Z := 48000.
Definition NUM_TABS : Z := 8.

(** [randfloat(beg, end)], [r] being what [rand()] returns. *)
Definition randfloat (RAND_MAX r : Z) (beg end_ : Q) : Q :=
  fadd (fmul (fdiv (float_of_int r) (float_of_int RAND_MAX)) (fsub end_ beg)) beg.

(** [randint(beg, end)], [r] being what [rand()] returns; [None] is the
    division by zero of [rand() % 0]. *)
Definition randint (r : Z) (beg end_ : Z) : option Z :=
  if wrap32 (end_ - beg) =? 0 then None
  else Some (wrap32 (r `rem` wrap32 (end_ - beg) + beg)).

(** The region of the picture a round of notes is made from:
    [startx = randint(0, imagew-RECT_WIDTH);]
    [starty = randint(0, imageh-RECT_HEIGHT);]
    with [imagew] and [imageh] of type [unsigned int], [rx] and [ry] being
    what the two calls of [rand()] return. *)
Definition RECT_WIDTH : Z := 50.
Definition RECT_HEIGHT : Z := 50.

Definition pick_region (imagew imageh rx ry : Z) : option (Z * Z) :=
  startx ← randint rx 0 (wrap32 ((imagew - RECT_WIDTH) mod 4294967296));
  starty ← randint ry 0 (wrap32 ((imageh - RECT_HEIGHT) mod 4294967296));
  Some (startx, starty).

Definition percent_in_range (perc beg end_ : Q) : Q :=
  fadd (fmul perc (fsub end_ beg)) beg.

(** The brightness of a note: [if(brightness > 1) brightness = 1;] *)
Definition clamp_brightness (brightness : Q) : Q :=
  if fgtb brightness 1 then 1 else brightness.

(** [(int) percent_in_range(brightness, 0, key->len)], the index at which
    the frequency of a note is read. *)
Definition freq_index (brightness : Q) (key_len : Z) : Z :=
  int_of_float (percent_in_range brightness 0 (float_of_int key_len)).

(** [(1-brightness) * 0.7 + 0.3], scaled by the 0.4 of the call of
    [add_osc]. *)
Definition note_amplitude (brightness : Q) : Q :=
  fmul (4 # 10) (fadd (fmul (fsub 1 brightness) (7 # 10)) (3 # 10)).

(** The index [ind] of the lookup table of a note, from the warmth that
    [randint] drew. *)
Definition table_index (drawn : Z) : Z :=
  let warmth := float_of_int drawn in
  let warmth := fsub warmth 30 in
  let warmth := if fltb warmth (-100) then (-100)%Q else warmth in
  let warmth := if fgtb warmth 100 then 100%Q else warmth in
  let warmth := fadd warmth 100 in
  let warmth := fdiv warmth 200 in
  int_of_float (fmul (float_of_int NUM_TABS) warmth).

End main.

(** ** image.c: the warmth of a region *)

Module image.

Record Pixel : Type := mkPixel { r : Z; g : Z; b : Z; a : Z }.

Record Image : Type := mkImage {
  pixels : Datatypes.list Pixel;
  width : Z;
  height : Z
}.

(** [get_pixel(image, x, y)]: the pixel at
    [image->pixels + y*image->width + x]; [None] stands for a pointer
    outside the array. *)
Definition get_pixel (image : Image) (x y : Z) : option Pixel :=
  let i := wrap32 (y * width image) + x in
  if i <? 0 then None else pixels image !! Z.to_nat i.

(** The positions the two [for] loops of [avg_warmth] visit, in order:
    [for(i = x; i < x+w; i++) for(j = y; j < y+h; j++)]. *)
Definition region (x y w h : Z) : Datatypes.list (Z * Z) :=
  i ← seqZ x (wrap32 (x + w) - x);
  (λ j, (i, j)) <$> seqZ y (wrap32 (y + h) - y).

(** [p = get_pixel(image, i, j); sum += (p->r - p->b);] *)
Definition add_warmth (image : Image) (sum : option Z) (ij : Z * Z) : option Z :=
  s ← sum;
  p ← get_pixel image ij.1 ij.2;
  Some (wrap32 (s + wrap32 (r p - b p))).

(** [avg_warmth(image, x, y, w, h)]: [sum/(float)(w*h)] converted to the
    [int] returned; [None] is a read outside the pixels or the division
    by a zero area. *)
Definition avg_warmth (image : Image) (x y w h : Z) : option Z :=
  sum ← foldl (add_warmth image) (Some 0) (region x y w h);
  if wrap32 (w * h) =? 0 then None
  else Some (int_of_float (fdiv (float_of_int sum)
                                (float_of_int (wrap32 (w * h))))).

Definition tot_avg_warmth (image : Image) : option Z :=
  avg_warmth image 0 0 (width image) (height image).

End image.

(** * Vocabulary of the properties *)

Import breakpoints oscillator audio_player.

(** A two-point envelope rising from 0 to 1 over ten seconds. *)
Definition ramp : Breakpoints :=
  {| list := [mkBreakpoint 0 0; mkBreakpoint 10 1]; maxtime := 10 |}.

(** Breakpoint times that never go down, as the loader leaves them. *)
Definition ascending (l : Datatypes.list Breakpoint) : Prop :=
  ∀ i a b, l !! i = Some a → l !! S i = Some b → (time a <= time b)%Q.

(** A call that printed a diagnostic and returned 0. *)
Definition fell_back (r : reply) : Prop :=
  returned r = Amp 0 ∧ ∃ msg, printed r = Some msg.

(** *** Breakpoint files *)

(** The text of a file with the given lines, each ended by a newline. *)
Definition file_of_lines (ls : Datatypes.list string) : string :=
  foldr (λ l acc, String.append l (String newline acc)) EmptyString ls.

(** The times of the lines of [file] that scan as a pair. *)
Definition times (sscanf_ff : string → option (Q * Q)) (file : string)
    : Datatypes.list Q :=
  fst <$> omap sscanf_ff (file_lines file).

Definition has_unparsable_line (sscanf_ff : string → option (Q * Q))
    (file : string) : Prop :=
  Exists (λ line, sscanf_ff line = None) (file_lines file).

Definition first_time_not_zero (ts : Datatypes.list Q) : Prop :=
  ∃ t rest, ts = t :: rest ∧ ¬ (t == 0)%Q.

(** Two consecutive times [a], [b] with [R a b]. *)
Definition has_step (R : Q → Q → Prop) (ts : Datatypes.list Q) : Prop :=
  ∃ i a b, ts !! i = Some a ∧ ts !! S i = Some b ∧ R a b.

(** Malformed in the sense of the specification: times that do not
    increase, equal consecutive times included. *)
Definition malformed_strict (sscanf_ff : string → option (Q * Q))
    (file : string) : Prop :=
  has_unparsable_line sscanf_ff file ∨
  first_time_not_zero (times sscanf_ff file) ∨
  has_step (λ a b, (b <= a)%Q) (times sscanf_ff file).

(** Malformed in the sense of the loader: a time below its predecessor. *)
Definition malformed (sscanf_ff : string → option (Q * Q))
    (file : string) : Prop :=
  has_unparsable_line sscanf_ff file ∨
  first_time_not_zero (times sscanf_ff file) ∨
  has_step (λ a b, (b < a)%Q) (times sscanf_ff file).

(** The test the loader applies to the times it reads, [prev] being the
    time of the breakpoint stored last. *)
Fixpoint times_ok (prev : option Q) (ts : Datatypes.list Q) : bool :=
  match ts with
  | [] => true
  | t :: ts' =>
      match prev with
      | None => Qeq_bool t 0
      | Some p => Qle_bool p t
      end && times_ok (Some t) ts'
  end.

(** An envelope file that drops from 1 to 1/2 at time 1. *)
Definition drop_file : string :=
  file_of_lines ["0, 0"; "1, 1"; "1, 0.5"; "2, 0"]%string.

(** *** Oscillators *)



(** The index after one more tick, from index [i] with increment [d]. *)
Definition next_index (tl i d : Z) : Z :=
  let i1 := wrap32 (i + d) in
  if i1 >? tl then wrap32 (i1 - tl) else i1.

(** A square wave of 48000 entries played for [seconds] at 48000 samples
    per second under the envelope [ramp], without wait. *)
Definition square_voice (hz seconds : Q) : Oscillator :=
  new_osc 7 (gen_square_tab 48000) 48000 ramp 48000 hz 1 seconds 0.

(** *** The oscillator list *)

(** The nodes [l] (address and oscillator, in list order) are linked in
    [h] from [p] to [q], the node before them being [pv]. *)
Fixpoint seg (h : gmap loc OscilNode) (pv p : option loc)
    (l : Datatypes.list (loc * Oscillator)) (q : option loc) : Prop :=
  match l with
  | [] => p = q
  | (a, o) :: l' =>
      p = Some a ∧
      ∃ nx, h !! a = Some (mkOscilNode nx pv o) ∧ seg h (Some a) nx l' q
  end.

(** [head] points to a well-formed list holding exactly [l]. *)
Definition is_osc_list (h : gmap loc OscilNode) (head : option loc)
    (l : Datatypes.list (loc * Oscillator)) : Prop :=
  seg h None head l None ∧ NoDup l.*1.

(** The list of a player. *)
Definition holds (w : world) (l : Datatypes.list (loc * Oscillator)) : Prop :=
  is_osc_list (mem w) (osc_list (player w)) l.

(** The address of the first node of [l], or [q] after an empty [l]. *)
Definition head_loc (l : Datatypes.list (loc * Oscillator)) (q : option loc)
    : option loc :=
  match l with
  | [] => q
  | (a, _) :: _ => Some a
  end.

(** The address of the last node of [l], or [pv] before an empty [l]. *)
Definition last_loc (pv : option loc) (l : Datatypes.list (loc * Oscillator))
    : option loc :=
  match last l with
  | Some (a, _) => Some a
  | None => pv
  end.

Definition ids (l : Datatypes.list (loc * Oscillator)) : Datatypes.list Z :=
  (λ x, id x.2) <$> l.

(** The entries a reap keeps. *)
Definition live (x : loc * Oscillator) : bool := negb (oscil_expired x.2).

(** Every oscillator of [l] ticked [n] times, in place. *)
Definition ticked_list (n : nat) (l : Datatypes.list (loc * Oscillator))
    : Datatypes.list (loc * Oscillator) :=
  (λ x, (x.1, ticked n x.2)) <$> l.

(** The sum, in list order and from 0, of what tick number [i] (counted
    from 0) of each oscillator of [l] returns. *)
Definition mix (l : Datatypes.list (loc * Oscillator)) (i : nat) : sample :=
  foldl sample_add (Amp 0) ((λ x, (oscil_tick (ticked i x.2)).2) <$> l).

(** A player at 48000 samples per second with no oscillator yet. *)
Definition silence : world :=
  {| mem := ∅;
     player := {| osc_list := None; osc_list_lock := false;
                  write_output := false; outfile := [];
                  audio_player.samplerate := 48000 |};
     trace := [] |}.

(** The three stores that unlink the node [a] of a list and free it. *)
Definition unlink (h : gmap loc OscilNode) (a : loc) (n : OscilNode)
    : option (gmap loc OscilNode) :=
  h1 ← store_if (set_next (next n)) (prev n) h;
  h2 ← store_if (set_prev (prev n)) (next n) h1;
  Some (delete a h2).


(** Two voices after two ticks each: the first, made for no time at all,
    has expired, the second plays for a second.  [duo] is a player whose
    list holds them and [reaped_duo] the same player after a reap. *)
Definition short_voice : Oscillator :=
  new_osc 1 (gen_square_tab 8) 8 ramp 48000 6000 1 0 0.
Definition long_voice : Oscillator :=
  new_osc 2 (gen_square_tab 8) 8 ramp 48000 6000 1 1 0.

Definition duo_list : Datatypes.list (loc * Oscillator) :=
  [(1%positive, ticked 2 short_voice); (2%positive, ticked 2 long_voice)].

Definition duo : world :=
  {| mem := {[ 1%positive := mkOscilNode (Some 2%positive) None (ticked 2 short_voice);
               2%positive := mkOscilNode None (Some 1%positive) (ticked 2 long_voice) ]};
     player := {| osc_list := Some 1%positive; osc_list_lock := false;
                  write_output := false; outfile := [];
                  audio_player.samplerate := 48000 |};
     trace := [] |}.

Definition reaped_duo : world :=
  {| mem := {[ 2%positive := mkOscilNode None None (ticked 2 long_voice) ]};
     player := {| osc_list := Some 2%positive; osc_list_lock := false;
                  write_output := false; outfile := [];
                  audio_player.samplerate := 48000 |};
     trace := [Access; Access; Access; Access] |}.

(** A player whose two voices carry the same id 2: the first plays, the
    second has expired; [reaped_twin] is the player after a reap. *)
Definition twin_voice : Oscillator :=
  new_osc 2 (gen_square_tab 8) 8 ramp 48000 6000 1 0 0.

Definition twin_list : Datatypes.list (loc * Oscillator) :=
  [(1%positive, ticked 2 long_voice); (2%positive, ticked 2 twin_voice)].

Definition twin : world :=
  {| mem := {[ 1%positive := mkOscilNode (Some 2%positive) None (ticked 2 long_voice);
               2%positive := mkOscilNode None (Some 1%positive) (ticked 2 twin_voice) ]};
     player := {| osc_list := Some 1%positive; osc_list_lock := false;
                  write_output := false; outfile := [];
                  audio_player.samplerate := 48000 |};
     trace := [] |}.

Definition reaped_twin : world :=
  {| mem := {[ 2%positive := mkOscilNode None None (ticked 2 twin_voice) ]};
     player := {| osc_list := Some 2%positive; osc_list_lock := false;
                  write_output := false; outfile := [];
                  audio_player.samplerate := 48000 |};
     trace := [Access; Access; Access; Access] |}.

(** *** Further vocabulary *)

(** The breakpoint a scanned line stores. *)
Definition stored (p : Q * Q) : Breakpoint := mkBreakpoint p.1 p.2.

(** A sum the mixer has formed: out of [fadd], hence in lowest terms. *)
Definition reduced (v : sample) : Prop :=
  match v with Amp x => Qred x = x | Garbage => True end.

(** The envelope [load_bp_file] makes of [drop_file]. *)
Definition drop_envelope : Breakpoints :=
  {| list := [mkBreakpoint 0 0; mkBreakpoint 1 1; mkBreakpoint 1 (1 # 2);
              mkBreakpoint 2 0];
     maxtime := 2 |}.

(** A voice of four samples under [drop_envelope]. *)
Definition fading_voice : Oscillator :=
  new_osc 3 (gen_square_tab 8) 8 drop_envelope 48000 6000 1 (1 # 12000) 0.

(** A voice of four samples that waits two samples before it starts. *)
Definition late_voice : Oscillator :=
  new_osc 4 (gen_square_tab 8) 8 ramp 48000 6000 1 (1 # 12000) (1 # 24000).

(** A player whose only voice has expired. *)
Definition spent_list : Datatypes.list (loc * Oscillator) :=
  [(1%positive, ticked 2 short_voice)].

Definition spent : world :=
  {| mem := {[ 1%positive := mkOscilNode None None (ticked 2 short_voice) ]};
     player := {| osc_list := Some 1%positive; osc_list_lock := false;
                  write_output := true; outfile := [];
                  audio_player.samplerate := 48000 |};
     trace := [] |}.


(** A picture of 52 by 51 pixels, all of one warm colour. *)
Definition dusk : image.Image :=
  {| image.pixels := replicate 2652 (image.mkPixel 200 100 50 255);
     image.width := 52; image.height := 51 |}.

(** * Properties *)

(** ** Numbers *)

Lemma wrap32_in_range (z : Z) : in_int z → wrap32 z = z.
Proof.
  unfold in_int, INT_MIN, INT_MAX, wrap32. intros Hz.
  rewrite Z.mod_small; lia.
Qed.

Lemma wrap32_range (z : Z) : in_int (wrap32 z).
Proof.
  unfold in_int, INT_MIN, INT_MAX, wrap32.
  pose proof (Z.mod_pos_bound (z + 2147483648) 4294967296). lia.
Qed.

Lemma fltb_lt (a b : Q) : fltb a b = true ↔ (a < b)%Q.
Proof.
  unfold fltb. rewrite negb_true_iff, <- not_true_iff_false, Qle_bool_iff.
  split; [apply Qnot_le_lt | apply Qlt_not_le].
Qed.

Lemma fltb_ge (a b : Q) : fltb a b = false ↔ (b <= a)%Q.
Proof.
  unfold fltb. rewrite negb_false_iff. apply Qle_bool_iff.
Qed.

Lemma fgtb_gt (a b : Q) : fgtb a b = true ↔ (b < a)%Q.
Proof. apply fltb_lt. Qed.

Lemma fgtb_le (a b : Q) : fgtb a b = false ↔ (a <= b)%Q.
Proof. apply fltb_ge. Qed.

Lemma fneb_neq (a b : Q) : fneb a b = true ↔ ¬ (a == b)%Q.
Proof.
  unfold fneb. rewrite negb_true_iff, <- not_true_iff_false, Qeq_bool_iff. tauto.
Qed.

Lemma fmul_eq (a b : Q) : (fmul a b == a * b)%Q.
Proof. apply Qred_correct. Qed.

(** ** Envelope evaluation *)

Lemma list_at_len (bp : Breakpoints) : list_at bp (len bp) = None.
Proof.
  unfold list_at, len.
  destruct (Z.ltb_spec (Z.of_nat (length (list bp))) 0) as [?|_]; [done|].
  rewrite Nat2Z.id. apply lookup_ge_None_2. lia.
Qed.

Lemma list_at_Some (bp : Breakpoints) (i : Z) (b : Breakpoint) :
  list_at bp i = Some b → 0 <= i < len bp ∧ b ∈ list bp.
Proof.
  unfold list_at, len. destruct (Z.ltb_spec i 0) as [?|Hi]; [done|].
  intros Hb. split; [|by eapply list_elem_of_lookup_2].
  apply lookup_lt_Some in Hb. lia.
Qed.

Lemma list_at_is_Some (bp : Breakpoints) (i : Z) :
  0 <= i < len bp → is_Some (list_at bp i).
Proof.
  unfold list_at, len. intros Hi.
  destruct (Z.ltb_spec i 0) as [?|_]; [lia|].
  apply lookup_lt_is_Some. lia.
Qed.

(** When no breakpoint lies after [t], the loop runs to [len - 1]. *)
Lemma scan_loop_runs_out (bp : Breakpoints) (t : Q) :
  Forall (λ b, (time b <= t)%Q) (list bp) →
  ∀ (fuel : nat) (i : Z),
    0 <= i <= len bp - 1 → len bp - 1 - i < Z.of_nat fuel →
    scan_loop fuel bp t i = Some (len bp - 1).
Proof.
  intros Hall. induction fuel as [|fuel IH]; intros i Hi Hfuel; [lia|].
  simpl. destruct (Z.ltb_spec i (len bp - 1)) as [Hlt|Hge].
  - destruct (list_at_is_Some bp (i + 1)) as [b Hb]; [lia|].
    rewrite Hb. simpl.
    assert (fgtb (time b) t = false) as ->.
    { apply fgtb_le. apply list_at_Some in Hb as [_ Hb].
      rewrite Forall_forall in Hall. by apply Hall. }
    apply IH; lia.
  - f_equal. lia.
Qed.

(** The loop of [get_timeval] always returns, with a counter below [len]. *)
Lemma scan_loop_returns (bp : Breakpoints) (t : Q) :
  ∀ (fuel : nat) (i : Z),
    0 <= i → Z.max 0 (len bp - 1 - i) < Z.of_nat fuel →
    ∃ j, scan_loop fuel bp t i = Some j ∧ i <= j ∧ (j < len bp ∨ j = i).
Proof.
  induction fuel as [|fuel IH]; intros i Hi Hfuel; [lia|].
  simpl. destruct (Z.ltb_spec i (len bp - 1)) as [Hlt|Hge].
  - destruct (list_at_is_Some bp (i + 1)) as [b Hb]; [lia|].
    rewrite Hb. simpl. destruct (fgtb (time b) t).
    + exists i. split; [done|lia].
    + destruct (IH (i + 1)) as (j & -> & ? & ?); [lia..|].
      exists j. split; [done|lia].
  - exists i. split; [done|lia].
Qed.

(** When no breakpoint lies after [t >= 0], the loop ends with
    [i = len - 1], the test [i == bp->len] fails, and the interpolation
    reads [bp->list[len]]. *)
Lemma get_timeval_no_later_breakpoint (bp : Breakpoints) (t : Q) :
  len bp ≠ 0 → (0 <= t)%Q → Forall (λ b, (time b <= t)%Q) (list bp) →
  scan_loop (length (list bp)) bp t 0 = Some (len bp - 1) ∧
  list_at bp (len bp - 1 + 1) = None ∧
  get_timeval bp t = {| printed := None; returned := Garbage |}.
Proof.
  intros Hlen Ht Hall.
  assert (0 < len bp) as Hpos by (unfold len in *; lia).
  assert (scan_loop (length (list bp)) bp t 0 = Some (len bp - 1)) as Hscan.
  { apply scan_loop_runs_out; [done|lia|unfold len; lia]. }
  assert (list_at bp (len bp - 1 + 1) = None) as Hread.
  { replace (len bp - 1 + 1) with (len bp) by lia. apply list_at_len. }
  split; [done|]. split; [done|].
  unfold get_timeval.
  apply fltb_ge in Ht as ->.
  destruct (Z.eqb_spec (len bp) 0) as [?|_]; [done|].
  rewrite Hscan. simpl. unfold after_loop.
  destruct (Z.eqb_spec (len bp - 1) (len bp)) as [?|_]; [lia|].
  by rewrite Hread.
Qed.

Lemma ascending_below_last (l : Datatypes.list Breakpoint) (b : Breakpoint) :
  ascending l → last l = Some b → Forall (λ x, (time x <= time b)%Q) l.
Proof.
  induction l as [|x l IH]; intros Hasc Hlast; [done|].
  destruct l as [|y l].
  - injection Hlast as ->. repeat constructor. apply Qle_refl.
  - rewrite last_cons_cons in Hlast.
    assert (Forall (λ x, (time x <= time b)%Q) (y :: l)) as Hl.
    { apply IH; [|done]. intros i a c Ha Hc. by apply (Hasc (S i) a c). }
    constructor; [|done].
    apply (Qle_trans _ (time y)); [by apply (Hasc O x y)|].
    by apply Forall_inv in Hl.
Qed.

(** The loop of [get_timeval] returns within the fuel it is given, with a
    counter inside the list. *)
Lemma get_timeval_loop_returns (bp : Breakpoints) (t : Q) :
  len bp ≠ 0 →
  ∃ j, scan_loop (length (list bp)) bp t 0 = Some j ∧ 0 <= j < len bp.
Proof.
  intros Hlen. assert (0 < len bp) as Hpos by (unfold len in *; lia).
  destruct (scan_loop_returns bp t (length (list bp)) 0) as (j & Hj & ? & ?);
    [lia|unfold len in *; lia|].
  exists j. split; [done|lia].
Qed.

(** Inside the envelope the value is interpolated: halfway up [ramp] it
    is 1/2, at the start it is the first value. *)
Lemma get_timeval_ramp :
  get_timeval ramp 5 = {| printed := None; returned := Amp (1 # 2) |} ∧
  get_percentval ramp 0 = {| printed := None; returned := Amp 0 |}.
Proof. by vm_compute. Qed.

(** C1.  [get_timeval] on an envelope with ascending times, at a time
    [t >= 0] at or after the time of the last breakpoint [b]: the code does
    not return [b]'s value; its loop ends with [i = len - 1], the test
    [i == bp->len] fails, and the interpolation reads [bp->list[len]], one
    element past the list. *)
Theorem get_timeval_past_last_reads_past_list (bp : Breakpoints) (t : Q)
    (b : Breakpoint) :
  ascending (list bp) → last (list bp) = Some b →
  (0 <= t)%Q → (time b <= t)%Q →
  scan_loop (length (list bp)) bp t 0 = Some (len bp - 1) ∧
  list_at bp (len bp - 1 + 1) = None ∧
  get_timeval bp t = {| printed := None; returned := Garbage |} ∧
  returned (get_timeval bp t) ≠ Amp (val b).
Proof.
  intros Hasc Hlast Ht Hb.
  destruct (get_timeval_no_later_breakpoint bp t) as (Hscan & Hread & Hget).
  - unfold len. destruct (list bp); [done|]. simpl. lia.
  - done.
  - eapply Forall_impl; [by apply ascending_below_last|].
    intros x Hx. simpl in Hx. by apply (Qle_trans _ (time b)).
  - by rewrite Hget.
Qed.

Lemma get_timeval_past_last_witness :
  get_timeval ramp 10 = {| printed := None; returned := Garbage |}.
Proof.
  apply (get_timeval_past_last_reads_past_list ramp 10 (mkBreakpoint 10 1)).
  - intros [|[|i]] x y Hx Hy; [|done..].
    injection Hx as <-. injection Hy as <-. by vm_compute.
  - done.
  - by vm_compute.
  - by vm_compute.
Defined.

(** C7.  A negative time or an empty list makes [get_timeval] print a
    diagnostic and return 0, and so does a [get_percentval] call whose
    scaled time is negative or whose list is empty. *)
Theorem get_timeval_fallback :
  (∀ (bp : Breakpoints) (t : Q),
     (t < 0)%Q ∨ len bp = 0 → fell_back (get_timeval bp t)) ∧
  (∀ (bp : Breakpoints) (p : Q),
     (maxtime bp * p < 0)%Q ∨ len bp = 0 → fell_back (get_percentval bp p)).
Proof.
  assert (∀ bp t, (t < 0)%Q ∨ len bp = 0 → fell_back (get_timeval bp t)) as H.
  { intros bp t Hc. unfold get_timeval, fell_back.
    destruct (fltb t 0) eqn:Ht; simpl; [eauto|].
    destruct Hc as [Hneg| ->]; simpl; [|eauto].
    apply fltb_lt in Hneg. congruence. }
  split; [done|].
  intros bp p [Hneg|Hlen]; apply H; [left|by right].
  by rewrite fmul_eq.
Qed.

Lemma get_timeval_fallback_witness :
  fell_back (get_timeval ramp (-1)) ∧
  fell_back (get_percentval {| list := []; maxtime := 0 |} (1 # 2)).
Proof.
  split.
  - apply (proj1 get_timeval_fallback). left. reflexivity.
  - apply (proj2 get_timeval_fallback). right. reflexivity.
Defined.

(** ** Loading an envelope file *)

Lemma fgets_chars_length (n : nat) (s : string) :
  (String.length (fgets_chars n s).2 <= String.length s)%nat.
Proof.
  revert s. induction n as [|n IH]; intros [|c s]; simpl; try lia.
  destruct (Ascii.eqb c newline); simpl; [lia|].
  specialize (IH s). destruct (fgets_chars n s) as [l r]. simpl in *. lia.
Qed.

Lemma fgets_shrinks (size : nat) (file line rest : string) :
  (1 < size)%nat → fgets size file = Some (line, rest) →
  (String.length rest < String.length file)%nat.
Proof.
  intros Hsize. destruct file as [|c s]; [done|].
  unfold fgets. destruct size as [|[|m]]; [lia..|].
  replace (S (S m) - 1)%nat with (S m) by lia. cbn [fgets_chars].
  destruct (Ascii.eqb c newline).
  - intros [= <- <-]. simpl. lia.
  - pose proof (fgets_chars_length m s) as Hlen.
    destruct (fgets_chars m s) as [l r]. intros [= <- <-]. simpl in *. lia.
Qed.

Local Arguments fgets : simpl never.

Section load_facts.

Variable sscanf_ff : string → option (Q * Q).

(** The loader returns: the fuel [load_bp_file] starts with suffices. *)
Lemma load_loop_returns (fuel : nat) (file : string) (l : Datatypes.list Breakpoint) (t : Q) :
  (String.length file < fuel)%nat →
  load_loop sscanf_ff fuel file l t ≠ NoReturn.
Proof.
  revert file l t. induction fuel as [|fuel IH]; intros file l t Hfuel; [lia|].
  simpl. destruct (fgets 255 file) as [[line rest]|] eqn:Hget; [|done].
  apply fgets_shrinks in Hget; [|lia].
  destruct (sscanf_ff line) as [[t' v']|]; [|done].
  destruct (last l); [destruct (fltb _ _)|destruct (fneb _ _)];
    try done; apply IH; lia.
Qed.

(** The loader returns [NULL] exactly when a line does not scan or the
    times fail the test. *)
Lemma load_loop_null (fuel : nat) (file : string) (l : Datatypes.list Breakpoint) (t : Q) :
  (String.length file < fuel)%nat →
  is_null (load_loop sscanf_ff fuel file l t) = true ↔
  Exists (λ line, sscanf_ff line = None) (lines_of fuel file) ∨
  times_ok (time <$> last l) (fst <$> omap sscanf_ff (lines_of fuel file)) = false.
Proof.
  revert file l t. induction fuel as [|fuel IH]; intros file l t Hfuel; [lia|].
  simpl. destruct (fgets 255 file) as [[line rest]|] eqn:Hget; simpl.
  2:{ rewrite Exists_nil. split; [done|]. by intros [[]|?]. }
  apply fgets_shrinks in Hget; [|lia].
  rewrite Exists_cons.
  destruct (sscanf_ff line) as [[t' v']|] eqn:Hscan; simpl.
  2:{ split; [by left; left|done]. }
  assert (∀ b, is_null (load_loop sscanf_ff fuel rest (l ++ [mkBreakpoint t' v']) b) = true ↔
            Exists (λ line, sscanf_ff line = None) (lines_of fuel rest) ∨
            times_ok (Some t') (fst <$> omap sscanf_ff (lines_of fuel rest)) = false) as Hrest.
  { intros b. rewrite IH by lia. by rewrite last_snoc. }
  destruct (last l) as [b|]; simpl.
  - unfold fltb. destruct (Qle_bool (time b) t'); simpl.
    + rewrite Hrest. split; [intros [?|?]; [left; by right|by right]|].
      intros [[?|?]|?]; [congruence|by left|by right].
    + split; [by right|done].
  - unfold fneb. destruct (Qeq_bool t' 0); simpl.
    + rewrite Hrest. split; [intros [?|?]; [left; by right|by right]|].
      intros [[?|?]|?]; [congruence|by left|by right].
    + split; [by right|done].
Qed.

End load_facts.

(** The times fail the loader's test exactly when the first is not 0 or
    one of them is below its predecessor. *)
Lemma times_ok_false (prev : option Q) (ts : Datatypes.list Q) :
  times_ok prev ts = false ↔
  match prev with
  | None => first_time_not_zero ts
  | Some p => ∃ t rest, ts = t :: rest ∧ (t < p)%Q
  end ∨ has_step (λ a b, (b < a)%Q) ts.
Proof.
  revert prev. induction ts as [|t ts IH]; intros prev.
  - simpl. split; [done|].
    intros [H|(i & a & b & H & _)]; [|done].
    destruct prev; [destruct H as (? & ? & ? & _)|destruct H as (? & ? & ? & _)]; done.
  - simpl. rewrite andb_false_iff, IH.
    assert (has_step (λ a b, (b < a)%Q) (t :: ts) ↔
            (∃ t' rest, ts = t' :: rest ∧ (t' < t)%Q) ∨
            has_step (λ a b, (b < a)%Q) ts) as ->.
    { split.
      - intros (i & a & b & Ha & Hb & Hab). destruct i as [|i]; simpl in *.
        + left. destruct ts as [|t' rest]; [done|]. simpl in *.
          injection Ha as <-. injection Hb as <-. by exists t', rest.
        + right. by exists i, a, b.
      - intros [(t' & rest & -> & Hlt)|(i & a & b & Ha & Hb & Hab)].
        + by exists O, t, t'.
        + by exists (S i), a, b. }
    assert (match prev with
            | Some p => Qle_bool p t
            | None => Qeq_bool t 0
            end = false ↔
            match prev with
            | Some p => ∃ t0 rest, t :: ts = t0 :: rest ∧ (t0 < p)%Q
            | None => first_time_not_zero (t :: ts)
            end) as ->; [|tauto].
    destruct prev as [p|].
    + rewrite <- not_true_iff_false, Qle_bool_iff. split.
      * intros Hlt. exists t, ts. split; [done|]. by apply Qnot_le_lt.
      * intros (? & ? & [= <- <-] & Hlt). by apply Qlt_not_le.
    + rewrite <- not_true_iff_false, Qeq_bool_iff. split.
      * intros Hne. by exists t, ts.
      * by intros (? & ? & [= <- <-] & Hne).
Qed.

(** C4, as the loader does it.  [load_bp_file] returns, and it returns
    [NULL] exactly for a file with a line that does not scan as a pair, a
    first time other than 0, or a time below the time before it; equal
    consecutive times are accepted. *)
Theorem load_bp_file_null_iff_malformed
    (sscanf_ff : string → option (Q * Q)) (uninit : Q) (file : string) :
  load_bp_file sscanf_ff uninit file ≠ NoReturn ∧
  (is_null (load_bp_file sscanf_ff uninit file) = true ↔ malformed sscanf_ff file).
Proof.
  unfold load_bp_file. split; [apply load_loop_returns; lia|].
  rewrite load_loop_null by lia. simpl.
  rewrite (times_ok_false None). unfold malformed, has_unparsable_line, times, file_lines.
  tauto.
Qed.

(** What a successful load hands back: ascending times, the first of
    them 0, and [maxtime] the time of the last breakpoint (of an empty
    file, whatever the local [time] held). *)
Lemma load_loop_loaded (sscanf_ff : string → option (Q * Q)) (fuel : nat) :
  ∀ (file : string) (l : Datatypes.list Breakpoint) (t : Q) (bp : Breakpoints),
    load_loop sscanf_ff fuel file l t = Loaded bp →
    ascending l → (∀ b, last l = Some b → time b = t) →
    (∀ b, head l = Some b → (time b == 0)%Q) →
    ascending (list bp) ∧
    (∀ b, last (list bp) = Some b → time b = maxtime bp) ∧
    (∀ b, head (list bp) = Some b → (time b == 0)%Q).
Proof.
  induction fuel as [|fuel IH]; intros file l t bp Hload Hasc Hlast Hhead; [done|].
  simpl in Hload. destruct (fgets 255 file) as [[line rest]|].
  2:{ by injection Hload as <-. }
  destruct (sscanf_ff line) as [[t' v']|]; [|done].
  assert (∀ b, last (l ++ [mkBreakpoint t' v']) = Some b → time b = t') as Hlast'.
  { intros b. rewrite last_snoc. by intros [= <-]. }
  destruct (last l) as [b|] eqn:Hl.
  - destruct (fltb t' (time b)) eqn:Hlt; [done|]. apply fltb_ge in Hlt.
    apply (IH rest (l ++ [mkBreakpoint t' v']) t' bp Hload); [|done|].
    + intros i x y Hx Hy.
      destruct (decide (S i < length l)%nat) as [Hin|Hout].
      * rewrite lookup_app_l in Hx, Hy by lia. by apply (Hasc i).
      * apply lookup_lt_Some in Hy as Hyi. rewrite length_app in Hyi. simpl in Hyi.
        assert (S i = length l) as Hi by lia.
        rewrite lookup_app_l in Hx by lia. rewrite Hi in Hy.
        rewrite list_lookup_middle in Hy by done. injection Hy as <-. simpl.
        rewrite last_lookup in Hl.
        replace (Nat.pred (length l)) with i in Hl by lia.
        rewrite Hl in Hx. by injection Hx as <-.
    + intros x Hx. apply Hhead. by destruct l.
  - apply last_None in Hl. subst l.
    destruct (fneb t' 0) eqn:Hz; [done|].
    unfold fneb in Hz. apply negb_false_iff, Qeq_bool_iff in Hz.
    apply (IH rest ([] ++ [mkBreakpoint t' v']) t' bp Hload); [|done|].
    + by intros [|i] x y Hx Hy.
    + simpl. by intros x [= <-].
Qed.

Lemma load_bp_file_loaded (sscanf_ff : string → option (Q * Q)) (uninit : Q)
    (file : string) (bp : Breakpoints) :
  load_bp_file sscanf_ff uninit file = Loaded bp →
  ascending (list bp) ∧
  (∀ b, last (list bp) = Some b → time b = maxtime bp) ∧
  (∀ b, head (list bp) = Some b → (time b == 0)%Q).
Proof.
  intros Hload.
  by apply (load_loop_loaded sscanf_ff _ _ [] uninit bp Hload).
Qed.

(** So on every envelope that was loaded and is not empty, the value at
    100 percent is read past the list. *)
Lemma get_percentval_end_of_loaded (sscanf_ff : string → option (Q * Q))
    (uninit : Q) (file : string) (bp : Breakpoints) :
  load_bp_file sscanf_ff uninit file = Loaded bp → list bp ≠ [] →
  returned (get_percentval bp 1) = Garbage.
Proof.
  intros Hload Hne.
  destruct (load_bp_file_loaded _ _ _ _ Hload) as (Hasc & Hmax & Hzero).
  destruct (last (list bp)) as [b|] eqn:Hlast; [|by apply last_None in Hlast].
  pose proof (ascending_below_last (list bp) b Hasc Hlast) as Hall.
  assert (0 <= time b)%Q as Hpos.
  { destruct (list bp) as [|x l]; [done|].
    apply Forall_inv in Hall. by rewrite <- (Hzero x). }
  assert (fmul (maxtime bp) 1 == time b)%Q as Heq.
  { rewrite fmul_eq, <- (Hmax b eq_refl). apply Qmult_1_r. }
  unfold get_percentval.
  destruct (get_timeval_no_later_breakpoint bp (fmul (maxtime bp) 1)) as (_ & _ & ->);
    [| |  |done].
  - unfold len. destruct (list bp); [done|]. simpl. lia.
  - by rewrite Heq.
  - eapply Forall_impl; [exact Hall|].
    intros x Hx. simpl in Hx. by rewrite Heq.
Qed.

(** C4, as the specification has it, fails: the file [drop_file] has two
    consecutive breakpoints at time 1 and is loaded. *)
Lemma load_bp_file_accepts_equal_times :
  malformed_strict decimal.sscanf_ff drop_file ∧
  load_bp_file decimal.sscanf_ff 0 drop_file =
    Loaded {| list := [mkBreakpoint 0 0; mkBreakpoint 1 1;
                       mkBreakpoint 1 (1 # 2); mkBreakpoint 2 0];
              maxtime := 2 |}.
Proof.
  split; [|by vm_compute].
  right. right. exists 1%nat, 1%Q, 1%Q.
  split; [by vm_compute|]. split; [by vm_compute|]. by vm_compute.
Qed.

(** ** The oscillator *)

Lemma oscil_tick_curr_sample (o : Oscillator) :
  curr_sample (oscil_tick o).1 = wrap32 (curr_sample o + 1).
Proof. unfold oscil_tick. by destruct (out_of_range o). Qed.

(** What a tick leaves alone. *)
Lemma oscil_tick_settings (o : Oscillator) :
  let o' := (oscil_tick o).1 in
  id o' = id o ∧ tab o' = tab o ∧ tablen o' = tablen o ∧ vol_bp o' = vol_bp o ∧
  freq o' = freq o ∧ amplitude o' = amplitude o ∧ slength o' = slength o ∧
  oscillator.samplerate o' = oscillator.samplerate o ∧ tinc o' = tinc o.
Proof. unfold oscil_tick. by destruct (out_of_range o). Qed.

Lemma ticked_settings (n : nat) (o : Oscillator) :
  let o' := ticked n o in
  id o' = id o ∧ tab o' = tab o ∧ tablen o' = tablen o ∧ vol_bp o' = vol_bp o ∧
  freq o' = freq o ∧ amplitude o' = amplitude o ∧ slength o' = slength o ∧
  oscillator.samplerate o' = oscillator.samplerate o ∧ tinc o' = tinc o.
Proof.
  induction n as [|n IH]; simpl; [done|].
  pose proof (oscil_tick_settings (ticked n o)) as Ht. simpl in *.
  destruct IH as (?&?&?&?&?&?&?&?&?), Ht as (?&?&?&?&?&?&?&?&?).
  repeat split; congruence.
Qed.

(** The sample counter counts the ticks, as long as it fits in an [int]. *)
Lemma ticked_curr_sample (n : nat) (o : Oscillator) :
  in_int (curr_sample o) → curr_sample o + Z.of_nat n <= INT_MAX →
  curr_sample (ticked n o) = curr_sample o + Z.of_nat n.
Proof.
  intros Hint. induction n as [|n IH]; intros Hmax; simpl; [lia|].
  rewrite oscil_tick_curr_sample, IH by lia.
  rewrite wrap32_in_range; [lia|]. unfold in_int, INT_MIN, INT_MAX in *. lia.
Qed.

Lemma oscil_expired_iff (o : Oscillator) :
  oscil_expired o = true ↔ (slength o < float_of_int (curr_sample o))%Q.
Proof.
  unfold oscil_expired. rewrite <- fgtb_gt. by destruct (fgtb _ _).
Qed.

Lemma out_of_range_iff (o : Oscillator) :
  out_of_range o = true ↔
  curr_sample o < 0 ∨ (slength o < float_of_int (curr_sample o))%Q.
Proof.
  unfold out_of_range. by rewrite orb_true_iff, Z.ltb_lt, fgtb_gt.
Qed.





(** *** The phase *)

Lemma Qtrunc_nonneg (q : Q) :
  (0 <= q)%Q → (inject_Z (Qtrunc q) <= q < inject_Z (Qtrunc q) + 1)%Q.
Proof.
  intros Hq. assert (Qtrunc q = Qfloor q) as ->.
  { destruct q as [n d]. unfold Qtrunc, Qfloor. simpl.
    apply Z.quot_div_nonneg; [|lia].
    unfold Qle in Hq. simpl in Hq. lia. }
  split; [apply Qfloor_le|].
  pose proof (Qlt_floor q) as Hlt. by rewrite inject_Z_plus in Hlt.
Qed.


Lemma oscil_tick_active (o : Oscillator) :
  out_of_range o = false →
  oscil_tick o =
    (advance_phase (bump_sample o),
     sample_mul (sample_mul (Amp (amplitude o)) (tab_at o (index o)))
       (returned (get_percentval (vol_bp o)
          (fdiv (float_of_int (wrap32 (curr_sample o + 1))) (slength o))))).
Proof. unfold oscil_tick. by intros ->. Qed.




(** What the wrap does keep: with an increment from 0 to [tablen], an
    index from 0 to [tablen] stays there, [tablen] itself included. *)
Lemma next_index_bounds (tl i d : Z) :
  0 <= i <= tl → 0 <= d <= tl → 2 * tl <= INT_MAX →
  0 <= next_index tl i d <= tl.
Proof.
  unfold next_index, INT_MAX. intros Hi Hd Htl.
  rewrite (wrap32_in_range (i + d)) by (unfold in_int, INT_MIN, INT_MAX; lia).
  destruct (Z.gtb_spec (i + d) tl); [|lia].
  rewrite wrap32_in_range by (unfold in_int, INT_MIN, INT_MAX; lia). lia.
Qed.

Lemma next_index_keeps_tablen (tl i d : Z) :
  0 <= i → 0 <= d → i + d = tl → tl <= INT_MAX → next_index tl i d = tl.
Proof.
  unfold next_index, INT_MAX. intros Hi Hd Hsum Htl.
  rewrite (wrap32_in_range (i + d)) by (unfold in_int, INT_MIN, INT_MAX; lia).
  destruct (Z.gtb_spec (i + d) tl); lia.
Qed.

(** C10.  The index is not kept below the table length: the wrap test is
    [index > tablen], so an index equal to [tablen] stays.  A 440 Hz voice
    over a 48000-entry table has increment 440 < 48000 and starts at index
    0; after 1200 ticks its index is 48000, and the next tick, still
    active, reads [tab[48000]] outside the table. *)
Theorem oscil_tick_index_reaches_tablen :
  let o := square_voice 440 5 in
  index o = 0 ∧
  Z.of_nat (length (tab o)) = tablen o ∧
  increment (freq o) (tablen o) (oscillator.samplerate o) = 440 ∧
  tablen o = 48000 ∧
  index (ticked 1200 o) = 48000 ∧
  out_of_range (ticked 1200 o) = false ∧
  tab_at (ticked 1200 o) (index (ticked 1200 o)) = Garbage ∧
  (oscil_tick (ticked 1200 o)).2 = Garbage.
Proof. vm_compute. repeat split. Qed.

(** ** The oscillator list *)

Lemma seg_frame (h h' : gmap loc OscilNode) (l : Datatypes.list (loc * Oscillator))
    (pv p q : option loc) :
  (∀ a, a ∈ l.*1 → h' !! a = h !! a) → seg h pv p l q → seg h' pv p l q.
Proof.
  revert pv p. induction l as [|[a o] l IH]; intros pv p Hsame; simpl; [done|].
  intros (-> & nx & Ha & Hl). split; [done|]. exists nx. split.
  - rewrite Hsame; [done|]. simpl. apply list_elem_of_here.
  - apply IH; [|done]. intros b Hb. apply Hsame. simpl. by apply list_elem_of_further.
Qed.

Lemma seg_app (h : gmap loc OscilNode) (k t : Datatypes.list (loc * Oscillator))
    (pv p q : option loc) :
  seg h pv p (k ++ t) q ↔ ∃ m, seg h pv p k m ∧ seg h (last_loc pv k) m t q.
Proof.
  revert pv p. induction k as [|[a o] k IH]; intros pv p; simpl.
  - split; [intros H; by exists p|by intros (m & -> & H)].
  - assert (last_loc pv ((a, o) :: k) = last_loc (Some a) k) as Hlast.
    { unfold last_loc. destruct k as [|x k]; [done|].
      rewrite last_cons_cons. destruct (last (x :: k)) as [[b ob]|] eqn:Hl; [done|].
      by apply last_None in Hl. }
    split.
    + intros (-> & nx & Ha & Hl). apply IH in Hl as (m & Hk & Ht).
      exists m. rewrite Hlast. eauto.
    + intros (m & (-> & nx & Ha & Hk) & Ht). rewrite Hlast in Ht.
      split; [done|]. exists nx. split; [done|]. apply IH. eauto.
Qed.

Lemma seg_head (h : gmap loc OscilNode) (l : Datatypes.list (loc * Oscillator))
    (pv p q : option loc) :
  seg h pv p l q → p = head_loc l q.
Proof. destruct l as [|[a o] l]; simpl; [done|]. by intros [-> _]. Qed.

(** ** The render pass *)

Lemma ticked_add (n m : nat) (o : Oscillator) :
  ticked n (ticked m o) = ticked (n + m) o.
Proof. induction n as [|n IH]; simpl; [done|]. by rewrite IH. Qed.

Lemma ticked_list_locs (n : nat) (l : Datatypes.list (loc * Oscillator)) :
  (ticked_list n l).*1 = l.*1.
Proof. unfold ticked_list. rewrite <- list_fmap_compose. by apply list_fmap_ext. Qed.

Lemma ticked_list_0 (l : Datatypes.list (loc * Oscillator)) : ticked_list 0 l = l.
Proof.
  induction l as [|[a o] l IH]; [done|].
  unfold ticked_list in *. rewrite fmap_cons. by rewrite IH.
Qed.

Lemma ticked_list_add (n m : nat) (l : Datatypes.list (loc * Oscillator)) :
  ticked_list n (ticked_list m l) = ticked_list (n + m) l.
Proof.
  unfold ticked_list. rewrite <- list_fmap_compose.
  apply list_fmap_ext. intros _ [a o] _. simpl. by rewrite ticked_add.
Qed.

Lemma mix_ticked_list (m i : nat) (l : Datatypes.list (loc * Oscillator)) :
  mix (ticked_list m l) i = mix l (i + m).
Proof.
  unfold mix, ticked_list. rewrite <- list_fmap_compose. f_equal.
  apply list_fmap_ext. intros _ [a o] _. simpl. by rewrite ticked_add.
Qed.

(** One pass of the inner loop ticks every oscillator once, in list order,
    and adds what the ticks return to [v]. *)
Lemma tick_all_spec (l : Datatypes.list (loc * Oscillator)) :
  ∀ (fuel : nat) (w : world) (pv p : option loc) (v : sample),
    seg (mem w) pv p l None → NoDup l.*1 → (length l < fuel)%nat →
    ∃ w',
      tick_all fuel w p v =
        Some (w', foldl sample_add v ((λ x, (oscil_tick x.2).2) <$> l)) ∧
      seg (mem w') pv p (ticked_list 1 l) None ∧
      (∀ a, a ∉ l.*1 → mem w' !! a = mem w !! a) ∧
      player w' = player w ∧
      trace w' = trace w ++ repeat Access (length l).
Proof.
  induction l as [|[a o] l IH]; intros fuel w pv p v Hseg Hnd Hfuel;
    destruct fuel as [|fuel]; simpl in Hfuel; try lia.
  - simpl in Hseg. subst p. exists w. simpl. by rewrite app_nil_r.
  - destruct Hseg as (-> & nx & Ha & Hl).
    apply NoDup_cons in Hnd as [Hnotin Hnd].
    cbn [tick_all]. rewrite Ha. cbn [mbind option_bind osc next].
    destruct (oscil_tick o) as [o' amp] eqn:Htick.
    set (w1 := log Access _).
    destruct (IH fuel w1 (Some a) nx (sample_add v amp)) as (w' & Hrun & Hseg' & Hfr & Hpl & Htr).
    { apply (seg_frame (mem w)); [|done]. intros b Hb. simpl.
      apply lookup_insert_ne. intros ->. done. }
    { done. }
    { lia. }
    exists w'. split; [|split; [|split; [|split]]].
    + rewrite Hrun. simpl. by rewrite Htick.
    + simpl. split; [done|]. exists nx. split; [|done].
      rewrite Hfr by done. simpl. rewrite lookup_insert_eq. by rewrite Htick.
    + intros b Hb. apply not_elem_of_cons in Hb as [Hne Hb].
      rewrite Hfr by done. simpl. by apply lookup_insert_ne.
    + done.
    + rewrite Htr. simpl. by rewrite <- app_assoc.
Qed.

(** The outer loop: frame [i] is the mix of tick [i] of every oscillator. *)
Lemma render_spec (frames : nat) :
  ∀ (fuel : nat) (w : world) (l : Datatypes.list (loc * Oscillator)),
    holds w l → (length l < fuel)%nat →
    ∃ w',
      render fuel frames w = Some (w', mix l <$> seq 0 frames) ∧
      holds w' (ticked_list frames l) ∧
      (∀ a, a ∉ l.*1 → mem w' !! a = mem w !! a) ∧
      player w' = player w ∧
      trace w' = trace w ++ repeat Access (frames * S (length l)).
Proof.
  induction frames as [|frames IH]; intros fuel w l [Hseg Hnd] Hfuel.
  - exists w. simpl. rewrite app_nil_r. repeat split; try done.
    + by rewrite ticked_list_0.
    + by rewrite ticked_list_locs.
  - cbn [render].
    destruct (tick_all_spec l fuel (log Access w) None (osc_list (player w)) (Amp 0))
      as (w1 & Hrun & Hseg1 & Hfr1 & Hpl1 & Htr1); [done..|].
    rewrite Hrun. cbn [mbind option_bind].
    destruct (IH fuel w1 (ticked_list 1 l)) as (w2 & Hrun2 & Hh2 & Hfr2 & Hpl2 & Htr2).
    { split; [by rewrite Hpl1|by rewrite ticked_list_locs]. }
    { unfold ticked_list. by rewrite length_fmap. }
    rewrite Hrun2. cbn [mbind option_bind].
    exists w2. split; [|split; [|split; [|split]]].
    + do 2 f_equal. simpl. f_equal.
      rewrite <- fmap_S_seq, <- list_fmap_compose.
      apply list_fmap_ext. intros _ i _. simpl.
      by rewrite mix_ticked_list, Nat.add_1_r.
    + rewrite ticked_list_add, Nat.add_1_r in Hh2. done.
    + intros a Ha. rewrite Hfr2, Hfr1; [done..|]. by rewrite ticked_list_locs.
    + by rewrite Hpl2, Hpl1.
    + rewrite Htr2, Htr1. unfold ticked_list. rewrite length_fmap. simpl.
      rewrite <- !app_assoc. f_equal. simpl. f_equal. by rewrite repeat_app.
Qed.

Lemma guarded_accesses (k : nat) (tr : Datatypes.list event) :
  guarded true (repeat Access k ++ tr) = guarded true tr.
Proof. induction k as [|k IH]; simpl; [done|]. by rewrite IH. Qed.


(** The callback and [add_osc] touch the list between a lock and an
    unlock. *)
Lemma audio_player_callback_guarded (fuel framesPerBuffer : nat) (w : world)
    (l : Datatypes.list (loc * Oscillator)) :
  holds w l → (length l < fuel)%nat →
  ∃ w' out k,
    audio_player_callback fuel w framesPerBuffer = Some (w', out) ∧
    trace w' = trace w ++ Lock :: repeat Access k ++ [Unlock] ∧
    guarded false (Lock :: repeat Access k ++ [Unlock]) = true.
Proof.
  intros Hl Hfuel. unfold audio_player_callback.
  destruct (render_spec framesPerBuffer fuel (pthread_mutex_lock w) l)
    as (w2 & Hrun & _ & _ & _ & Htr); [done..|].
  rewrite Hrun. cbn [mbind option_bind].
  eexists _, _, _. split; [done|]. split.
  - destruct (write_output _); simpl; rewrite Htr; simpl;
      by rewrite <- !app_assoc.
  - simpl. by rewrite guarded_accesses.
Qed.


(** ** Removal and the reap *)

Lemma last_loc_cons (pv : option loc) (x : loc * Oscillator)
    (k : Datatypes.list (loc * Oscillator)) :
  last_loc pv (x :: k) = last_loc (Some x.1) k.
Proof.
  unfold last_loc. destruct k as [|y k]; [by destruct x|].
  rewrite last_cons_cons. destruct (last (y :: k)) as [[b ob]|] eqn:Hl; [done|].
  by apply last_None in Hl.
Qed.

Lemma last_loc_elem (pv : option loc) (k : Datatypes.list (loc * Oscillator)) :
  k ≠ [] → ∃ b, last_loc pv k = Some b ∧ b ∈ k.*1.
Proof.
  intros Hk. unfold last_loc.
  destruct (last k) as [[b ob]|] eqn:Hl; [|by apply last_None in Hl].
  exists b. split; [done|].
  apply last_Some in Hl as [k' ->]. rewrite fmap_app.
  apply elem_of_app. right. apply list_elem_of_here.
Qed.

(** Storing a new [next] into the last node of a segment moves its end. *)
Lemma seg_retarget (h : gmap loc OscilNode) (k : Datatypes.list (loc * Oscillator))
    (q' : option loc) :
  ∀ pv p q, k ≠ [] → NoDup k.*1 → seg h pv p k q →
    ∃ b nb, last_loc pv k = Some b ∧ h !! b = Some nb ∧
            seg (<[b := set_next q' nb]> h) pv p k q'.
Proof.
  induction k as [|[b ob] k IH]; intros pv p q Hne Hnd Hseg; [done|].
  destruct Hseg as (-> & nx & Hb & Hk).
  apply NoDup_cons in Hnd as [Hnotin Hnd].
  destruct k as [|x k].
  - simpl in Hk. subst nx. exists b, (mkOscilNode q pv ob).
    split; [done|]. split; [done|]. simpl. split; [done|].
    exists q'. by rewrite lookup_insert_eq.
  - destruct (IH (Some b) nx q) as (c & nc & Hlast & Hc & Hseg); [done..|].
    exists c, nc. rewrite last_loc_cons. split; [done|]. split; [done|].
    assert (c ≠ b) as Hcb.
    { destruct (last_loc_elem (Some b) (x :: k)) as (c' & Hc' & Hin); [done|].
      intros ->. rewrite Hlast in Hc'. injection Hc' as <-. done. }
    split; [done|]. exists nx. split; [|done].
    by rewrite lookup_insert_ne.
Qed.

(** Storing a new [prev] into the first node of a segment. *)
Lemma seg_reprev (h : gmap loc OscilNode) (t : Datatypes.list (loc * Oscillator))
    (pv pv' p q : option loc) :
  NoDup t.*1 → seg h pv p t q →
  ∃ h', store_if (set_prev pv') (head_loc t None) h = Some h' ∧
        seg h' pv' p t q ∧
        (∀ b, b ∉ t.*1 → h' !! b = h !! b).
Proof.
  intros Hnd Hseg. destruct t as [|[c oc] t].
  - exists h. by simpl in *.
  - destruct Hseg as (-> & nx & Hc & Ht).
    apply NoDup_cons in Hnd as [Hnotin Hnd].
    exists (<[c := mkOscilNode nx pv' oc]> h). split; [|split].
    + simpl. unfold store. by rewrite Hc.
    + simpl. split; [done|]. exists nx. rewrite lookup_insert_eq. split; [done|].
      apply (seg_frame h); [|done]. intros b Hb.
      apply lookup_insert_ne. by intros ->.
    + intros b Hb. apply not_elem_of_cons in Hb as [Hne _].
      by apply lookup_insert_ne.
Qed.

Lemma unlink_spec (h : gmap loc OscilNode) (head : option loc)
    (k t : Datatypes.list (loc * Oscillator)) (a : loc) (o : Oscillator) :
  seg h None head (k ++ (a, o) :: t) None → NoDup (k ++ (a, o) :: t).*1 →
  ∃ h',
    h !! a = Some (mkOscilNode (head_loc t None) (last_loc None k) o) ∧
    unlink h a (mkOscilNode (head_loc t None) (last_loc None k) o) = Some h' ∧
    seg h' None (match k with [] => head_loc t None | _ => head end) (k ++ t) None ∧
    h' !! a = None ∧
    (∀ b, b ∉ (k ++ (a, o) :: t).*1 → h' !! b = h !! b).
Proof.
  intros Hseg Hnd.
  apply seg_app in Hseg as (m & Hk & (-> & nx & Ha & Ht)).
  rewrite fmap_app, fmap_cons in Hnd. simpl in Hnd.
  apply NoDup_app in Hnd as (Hndk & Hdisj & Hnd).
  apply NoDup_cons in Hnd as [Hat Hndt].
  assert (a ∉ k.*1) as Hak by (intros Hin; apply (Hdisj a Hin), list_elem_of_here).
  pose proof (seg_head _ _ _ _ _ Ht) as ->.
  (* first store: the node before [a] *)
  assert (∃ h1, store_if (set_next (head_loc t None)) (last_loc None k) h = Some h1 ∧
                seg h1 None (match k with [] => head_loc t None | _ => head end)
                    k (head_loc t None) ∧
                (∀ b, b ∉ k.*1 → h1 !! b = h !! b)) as (h1 & Hst1 & Hk1 & Hfr1).
  { destruct k as [|x k].
    - exists h. by simpl in *.
    - destruct (seg_retarget h (x :: k) (head_loc t None) None head (Some a))
        as (b & nb & Hlast & Hb & Hsegk); [done..|].
      exists (<[b := set_next (head_loc t None) nb]> h). split; [|split]; [|done|].
      + rewrite Hlast. simpl. unfold store. by rewrite Hb.
      + intros c Hc. apply lookup_insert_ne. intros ->. apply Hc.
        destruct (last_loc_elem None (x :: k)) as (b' & Hb' & Hin); [done|].
        rewrite Hlast in Hb'. by injection Hb' as <-. }
  (* second store: the node after [a] *)
  destruct (seg_reprev h1 t (Some a) (last_loc None k) (head_loc t None) None)
    as (h2 & Hst2 & Ht2 & Hfr2); [done| |].
  { apply (seg_frame h); [|done]. intros b Hb. apply Hfr1.
    intros Hin. by apply (Hdisj b Hin), list_elem_of_further. }
  exists (delete a h2). split; [done|]. split; [|split; [|split]].
  - unfold unlink. simpl. rewrite Hst1. simpl. by rewrite Hst2.
  - apply seg_app. exists (head_loc t None). split.
    + apply (seg_frame h1); [|done]. intros b Hb.
      rewrite lookup_delete_ne by (by intros ->).
      apply Hfr2. intros Hin. by apply (Hdisj b Hb), list_elem_of_further.
    + apply (seg_frame h2); [|done]. intros b Hb.
      apply lookup_delete_ne. by intros ->.
  - apply lookup_delete_eq.
  - intros b Hb. rewrite fmap_app, fmap_cons in Hb. simpl in Hb.
    apply not_elem_of_app in Hb as [Hbk Hb].
    apply not_elem_of_cons in Hb as [Hba Hbt].
    rewrite lookup_delete_ne by done. by rewrite Hfr2, Hfr1.
Qed.

(** The loop of [oscil_list_remove] walks past the nodes with another id
    and unlinks the first node with the id. *)
Lemma remove_loop_finds (k : Datatypes.list (loc * Oscillator)) :
  ∀ (fuel : nat) (h : gmap loc OscilNode) (pv p : option loc) (a : loc)
    (na : OscilNode) (i : Z),
    seg h pv p k (Some a) → Forall (λ x, id x.2 ≠ i) k →
    h !! a = Some na → id (osc na) = i → (length k < fuel)%nat →
    remove_loop fuel h p i = unlink h a na.
Proof.
  induction k as [|[b ob] k IH]; intros fuel h pv p a na i Hseg Hids Ha Hid Hfuel;
    destruct fuel as [|fuel]; simpl in Hfuel; try lia.
  - simpl in Hseg. subst p. cbn [remove_loop]. rewrite Ha. simpl.
    apply Z.eqb_eq in Hid. by rewrite Hid.
  - destruct Hseg as (-> & nx & Hb & Hk).
    apply Forall_cons in Hids as [Hne Hids]. simpl in Hne.
    cbn [remove_loop]. rewrite Hb. simpl.
    apply Z.eqb_neq in Hne. rewrite Hne.
    apply (IH fuel h (Some b)); [done..|lia].
Qed.

Lemma oscil_list_remove_spec (fuel : nat) (h : gmap loc OscilNode)
    (head : option loc) (k t : Datatypes.list (loc * Oscillator))
    (a : loc) (o : Oscillator) :
  seg h None head (k ++ (a, o) :: t) None →
  NoDup (k ++ (a, o) :: t).*1 → NoDup (ids (k ++ (a, o) :: t)) →
  (length k < fuel)%nat →
  ∃ h' head',
    oscil_list_remove fuel h head (id o) = Some (h', head') ∧
    seg h' None head' (k ++ t) None ∧
    h' !! a = None ∧
    (∀ b, b ∉ (k ++ (a, o) :: t).*1 → h' !! b = h !! b).
Proof.
  intros Hseg Hnd Hids Hfuel.
  destruct (unlink_spec h head k t a o) as (h' & Ha & Hun & Hseg' & Hgone & Hfr);
    [done..|].
  exists h'. eexists. split; [|done].
  destruct k as [|[c oc] k].
  - simpl in Hseg. destruct Hseg as (-> & _).
    unfold oscil_list_remove. rewrite Ha. simpl. rewrite Z.eqb_refl.
    unfold unlink in Hun. simpl in Hun.
    destruct (store_if _ _ h) as [h2|]; [|done]. simpl in *.
    by injection Hun as <-.
  - pose proof Hseg as Hseg0. destruct Hseg as (-> & nx & Hc & Hk).
    unfold oscil_list_remove. rewrite Hc. simpl.
    unfold ids in Hids. change (NoDup (id oc :: ids (k ++ (a, o) :: t))) in Hids.
    apply NoDup_cons in Hids as [Hc_id Hids].
    unfold ids in Hc_id, Hids. rewrite fmap_app, fmap_cons in Hc_id, Hids.
    simpl in Hc_id, Hids.
    assert (id oc ≠ id o) as Hne.
    { intros Heq. apply Hc_id. rewrite Heq. apply elem_of_app. right. apply list_elem_of_here. }
    apply Z.eqb_neq in Hne. rewrite Hne.
    apply seg_app in Hseg0 as (m & Hsegk & Hm).
    destruct Hm as (-> & _).
    rewrite (remove_loop_finds ((c, oc) :: k) fuel h None (Some c) a
               (mkOscilNode (head_loc t None) (last_loc None ((c, oc) :: k)) o)
               (id o)); [by rewrite Hun|done| |done..].
    apply Forall_cons. split; [by apply Z.eqb_neq|].
    apply Forall_forall. intros x Hx Heq.
    apply NoDup_app in Hids as (_ & Hdisj & _).
    apply (Hdisj (id x.2)); [|rewrite Heq; apply list_elem_of_here].
    by apply (list_elem_of_fmap_2 (λ x : loc * Oscillator, id x.2)).
Qed.

Lemma seg_lookup (h : gmap loc OscilNode) (pv p : option loc)
    (k t : Datatypes.list (loc * Oscillator)) (a : loc) (o : Oscillator) :
  seg h pv p (k ++ (a, o) :: t) None →
  h !! a = Some (mkOscilNode (head_loc t None) (last_loc pv k) o).
Proof.
  intros Hseg. apply seg_app in Hseg as (m & _ & (-> & nx & Ha & Ht)).
  by rewrite <- (seg_head _ _ _ _ _ Ht).
Qed.

Lemma NoDup_fmap_drop_middle {A B : Type} (f : A → B) (k t : Datatypes.list A) (x : A) :
  NoDup (f <$> (k ++ x :: t)) → NoDup (f <$> (k ++ t)) ∧ f x ∉ f <$> (k ++ t).
Proof.
  rewrite !fmap_app, fmap_cons. intros Hnd.
  apply NoDup_app in Hnd as (Hk & Hdisj & Hxt).
  apply NoDup_cons in Hxt as [Hx Ht]. split.
  - apply NoDup_app. split; [done|]. split; [|done].
    intros y Hy Hyt. apply (Hdisj y Hy). by apply list_elem_of_further.
  - rewrite elem_of_app. intros [Hin|Hin]; [|done].
    apply (Hdisj (f x) Hin). apply list_elem_of_here.
Qed.

(** The loop of [synch_update] with the cursor at the first node of [t],
    the nodes [k] before it having been kept. *)
Lemma synch_loop_spec (t : Datatypes.list (loc * Oscillator)) :
  ∀ (k : Datatypes.list (loc * Oscillator)) (fuel inner : nat) (w : world),
    holds w (k ++ t) → NoDup (ids (k ++ t)) →
    (length t < fuel)%nat → (length (k ++ t) < inner)%nat →
    ∃ w',
      synch_loop fuel inner w (head_loc t None) = Some w' ∧
      holds w' (k ++ filter live t) ∧
      (∀ x, x ∈ t → live x = false → mem w' !! x.1 = None) ∧
      (∀ b, b ∉ (k ++ t).*1 → mem w' !! b = mem w !! b).
Proof.
  induction t as [|[a o] t IH]; intros k fuel inner w Hl Hids Hfuel Hinner;
    destruct fuel as [|fuel]; simpl in Hfuel; try lia.
  - exists w. split; [done|]. split; [done|]. split; [|done].
    intros x Hx. by apply elem_of_nil in Hx.
  - destruct Hl as [Hseg Hnd].
    pose proof (seg_lookup _ _ _ _ _ _ _ Hseg) as Ha.
    cbn [synch_loop head_loc]. rewrite Ha. cbn [mbind option_bind osc next].
    destruct (oscil_expired o) eqn:Hexp.
    + (* expired: the node is removed, the cursor moves to [temp] *)
      destruct (oscil_list_remove_spec inner (mem w) (osc_list (player w)) k t a o)
        as (h' & hd' & Hrm & Hseg' & Hgone & Hfr); [done..| |].
      { rewrite length_app in Hinner. lia. }
      change (mem (log Access w)) with (mem w).
      change (osc_list (player (log Access w))) with (osc_list (player w)).
      rewrite Hrm. cbn [mbind option_bind].
      destruct (NoDup_fmap_drop_middle fst k t (a, o) Hnd) as [Hnd' Hak].
      destruct (NoDup_fmap_drop_middle (λ x, id x.2) k t (a, o) Hids) as [Hids' _].
      destruct (IH k fuel inner (set_list h' hd' (log Access w)))
        as (w' & Hrun & Hl' & Hfreed & Hfr'); [done|done|lia| |].
      { rewrite length_app in *. simpl in Hinner. lia. }
      exists w'. split; [done|]. split; [|split].
      * rewrite filter_cons_False; [done|]. unfold live. simpl. rewrite Hexp. by intros [].
      * intros x Hx Hdead. apply elem_of_cons in Hx as [->|Hx]; [|by apply Hfreed].
        simpl. by rewrite Hfr'.
      * intros b Hb. rewrite Hfr'; [by apply Hfr|].
        rewrite fmap_app in *. rewrite fmap_cons in Hb.
        rewrite not_elem_of_app in *. rewrite not_elem_of_cons in Hb. tauto.
    + (* not expired: the node is kept *)
      destruct (IH (k ++ [(a, o)]) fuel inner (log Access w))
        as (w' & Hrun & Hl' & Hfreed & Hfr').
      { by rewrite <- app_assoc. }
      { by rewrite <- app_assoc. }
      { lia. }
      { by rewrite <- app_assoc. }
      rewrite <- app_assoc in Hl', Hfr'.
      exists w'. split; [done|]. split; [|split].
      * rewrite filter_cons_True; [done|]. unfold live. simpl. by rewrite Hexp.
      * intros x Hx Hdead. apply elem_of_cons in Hx as [->|Hx]; [|by apply Hfreed].
        unfold live in Hdead. simpl in Hdead. by rewrite Hexp in Hdead.
      * done.
Qed.

Lemma seg_elem (h : gmap loc OscilNode) (l : Datatypes.list (loc * Oscillator))
    (pv p : option loc) (a : loc) (o : Oscillator) :
  seg h pv p l None → (a, o) ∈ l → ∃ n, h !! a = Some n ∧ osc n = o.
Proof.
  intros Hseg Hin. apply list_elem_of_split in Hin as (k & t & ->).
  apply seg_lookup in Hseg. eauto.
Qed.

(** C8.  On a list with unique ids, [synch_update] leaves exactly the
    entries that are not expired, in their order; the nodes of the expired
    ones are freed, and every remaining node holds the oscillator it held,
    unchanged. *)
Theorem synch_update_reaps (fuel : nat) (w : world)
    (l : Datatypes.list (loc * Oscillator)) :
  holds w l → NoDup (ids l) → (length l < fuel)%nat →
  ∃ w',
    synch_update fuel w = Some w' ∧
    holds w' (filter live l) ∧
    (∀ a o, (a, o) ∈ l → oscil_expired o = true → mem w' !! a = None) ∧
    (∀ a o, (a, o) ∈ l → oscil_expired o = false →
            ∃ n, mem w' !! a = Some n ∧ osc n = o).
Proof.
  intros Hl Hids Hfuel. unfold synch_update.
  destruct (synch_loop_spec l [] fuel fuel (log Access w))
    as (w' & Hrun & Hl' & Hfreed & _); [done..|].
  pose proof (seg_head _ _ _ _ _ (proj1 Hl)) as Hhead.
  rewrite Hhead. exists w'. split; [done|]. split; [done|]. split.
  - intros a o Hin Hexp. apply (Hfreed (a, o) Hin). unfold live. simpl. by rewrite Hexp.
  - intros a o Hin Hexp. apply (seg_elem _ _ _ _ _ _ (proj1 Hl')).
    apply list_elem_of_filter. split; [|done]. unfold live. simpl. by rewrite Hexp.
Qed.

(** Unique ids are needed: [oscil_list_remove] unlinks the first node with
    the id it is given, so with an id in the list twice the reap frees the
    playing voice in front and keeps the expired one. *)
Lemma synch_update_shared_id :
  holds twin twin_list ∧
  oscil_expired (ticked 2 long_voice) = false ∧
  oscil_expired (ticked 2 twin_voice) = true ∧
  synch_update 3 twin = Some reaped_twin ∧
  holds reaped_twin [(2%positive, ticked 2 twin_voice)].
Proof.
  split; [|split; [|split; [|split]]]; try by vm_compute.
  - split; [|by apply (bool_decide_unpack _)].
    simpl. split; [done|]. eexists. split; [by vm_compute|].
    split; [done|]. eexists. split; [by vm_compute|]. done.
  - split; [|by apply (bool_decide_unpack _)].
    simpl. split; [done|]. eexists. split; [by vm_compute|]. done.
Qed.

(** [synch_update] only touches the list: it never locks the mutex. *)
Lemma synch_loop_trace (fuel inner : nat) :
  ∀ (w w' : world) (curr : option loc),
    synch_loop fuel inner w curr = Some w' →
    ∃ n, trace w' = trace w ++ repeat Access n.
Proof.
  induction fuel as [|fuel IH]; intros w w' curr Hrun; [done|].
  simpl in Hrun. destruct curr as [c|].
  2:{ injection Hrun as <-. exists 0%nat. by rewrite app_nil_r. }
  destruct (mem w !! c) as [n|]; [|done]. simpl in Hrun.
  destruct (oscil_expired (osc n)).
  - destruct (oscil_list_remove _ _ _ _) as [[h hd]|]; [|done]. simpl in Hrun.
    apply IH in Hrun as [m ->]. exists (S (S m)). simpl.
    by rewrite <- !app_assoc.
  - apply IH in Hrun as [m ->]. exists (S m). simpl. by rewrite <- !app_assoc.
Qed.

Lemma duo_holds : holds duo duo_list.
Proof.
  split.
  - simpl. split; [done|]. eexists. split; [by vm_compute|].
    split; [done|]. eexists. split; [by vm_compute|]. done.
  - by apply (bool_decide_unpack _).
Qed.

Lemma duo_reaped : synch_update 3 duo = Some reaped_duo.
Proof. by vm_compute. Qed.

Lemma duo_ids : NoDup (ids duo_list).
Proof. by apply (bool_decide_unpack _). Qed.

(** ** Insertion *)

Lemma seg_allocated (h : gmap loc OscilNode) (l : Datatypes.list (loc * Oscillator))
    (pv p q : option loc) (a : loc) :
  seg h pv p l q → a ∈ l.*1 → is_Some (h !! a).
Proof.
  revert pv p. induction l as [|[b o] l IH]; intros pv p Hseg Hin; simpl in *.
  - by apply elem_of_nil in Hin.
  - destruct Hseg as (-> & nx & Hb & Hl).
    apply elem_of_cons in Hin as [->|Hin]; [by eexists|]. by eapply IH.
Qed.

Lemma last_node_spec (l : Datatypes.list (loc * Oscillator)) :
  ∀ (fuel : nat) (h : gmap loc OscilNode) (pv : option loc) (a : loc) (o : Oscillator),
    seg h pv (Some a) ((a, o) :: l) None → (length l < fuel)%nat →
    last_node fuel h a = last_loc pv ((a, o) :: l).
Proof.
  induction l as [|[b ob] l IH]; intros fuel h pv a o Hseg Hfuel;
    destruct fuel as [|fuel]; simpl in Hfuel; try lia;
    destruct Hseg as (_ & nx & Ha & Hl); cbn [last_node]; rewrite Ha; simpl.
  - simpl in Hl. by subst nx.
  - pose proof Hl as (-> & _).
    rewrite (IH fuel h (Some a) b ob); [|done|lia].
    by rewrite (last_loc_cons pv (a, o)).
Qed.

(** [oscil_list_add] puts a fresh node with the oscillator at the end. *)
Lemma oscil_list_add_spec (fuel : nat) (h : gmap loc OscilNode)
    (head : option loc) (l : Datatypes.list (loc * Oscillator)) (o : Oscillator) :
  is_osc_list h head l → (length l <= fuel)%nat →
  ∃ h' head',
    oscil_list_add fuel h head o = Some (h', head') ∧
    is_osc_list h' head' (l ++ [(fresh (dom h), o)]).
Proof.
  intros [Hseg Hnd] Hfuel. set (node := fresh (dom h)).
  assert (h !! node = None) as Hfresh.
  { apply not_elem_of_dom. apply is_fresh. }
  assert (node ∉ l.*1) as Hnode.
  { intros Hin. destruct (seg_allocated _ _ _ _ _ _ Hseg Hin) as [n Hn]. congruence. }
  assert (NoDup (l ++ [(node, o)]).*1) as Hnd'.
  { rewrite fmap_app. apply NoDup_app. split; [done|]. split.
    - intros x Hx Hx'. apply list_elem_of_singleton in Hx'. by subst x.
    - apply NoDup_singleton. }
  unfold oscil_list_add. fold node. destruct l as [|[a oa] l].
  - simpl in Hseg. subst head. eexists _, _. split; [done|]. split; [|done].
    simpl. split; [done|]. exists None. by rewrite lookup_insert_eq.
  - pose proof Hseg as (-> & _).
    rewrite (last_node_spec l fuel h None a oa Hseg) by (simpl in Hfuel; lia).
    destruct (seg_retarget h ((a, oa) :: l) (Some node) None (Some a) None)
      as (b & nb & Hlast & Hb & Hseg1); [done..|].
    rewrite Hlast. cbn [mbind option_bind]. unfold store. rewrite Hb.
    cbn [mbind option_bind].
    eexists _, _. split; [done|]. split; [|done].
    apply seg_app. exists (Some node). split.
    + apply (seg_frame (<[b:=set_next (Some node) nb]> h)); [|done].
      intros c Hc. apply lookup_insert_ne. by intros ->.
    + rewrite Hlast. simpl. split; [done|]. exists None.
      by rewrite lookup_insert_eq.
Qed.


(** A whole session from [silence]: two voices are added, two frames are
    rendered, and the reap runs.  The first two steps keep the list under
    the lock; the accesses of the reap come after the last unlock. *)
Lemma session_trace :
  (w1 ← add_osc 3 silence 1 (gen_square_tab 8) 8 ramp 6000 1 0 0;
   w2 ← add_osc 3 w1 2 (gen_square_tab 8) 8 ramp 6000 1 1 0;
   '(w3, _) ← audio_player_callback 3 w2 2;
   w4 ← synch_update 3 w3;
   Some (guarded false (trace w3), trace w4, guarded false (trace w4))) =
  Some (true,
        [Lock; Access; Unlock; Lock; Access; Unlock;
         Lock; Access; Access; Access; Access; Access; Access; Unlock;
         Access; Access; Access; Access],
        false).
Proof. by vm_compute. Qed.

(** C8 and C9 at the player [duo]. *)
Lemma synch_update_reaps_witness :
  ∃ w',
    synch_update 3 duo = Some w' ∧
    holds w' (filter live duo_list) ∧
    (∀ a o, (a, o) ∈ duo_list → oscil_expired o = true → mem w' !! a = None) ∧
    (∀ a o, (a, o) ∈ duo_list → oscil_expired o = false →
            ∃ n, mem w' !! a = Some n ∧ osc n = o).
Proof.
  apply (synch_update_reaps 3 duo duo_list).
  - exact duo_holds.
  - exact duo_ids.
  - simpl. lia.
Defined.


(** C3.  [synch_update] reads and unlinks nodes of the list without ever
    locking [osc_list_lock]: its events are accesses only, so from a state
    where the mutex is not held none of them is guarded. *)
Theorem synch_update_takes_no_lock (fuel : nat) (w w' : world) :
  synch_update fuel w = Some w' →
  ∃ n, trace w' = trace w ++ repeat Access (S n) ∧
       guarded false (repeat Access (S n)) = false.
Proof.
  unfold synch_update. intros Hrun.
  apply synch_loop_trace in Hrun as [n Htr]. exists n. split; [|done].
  rewrite Htr. simpl. by rewrite <- app_assoc.
Qed.

Lemma synch_update_takes_no_lock_witness :
  ∃ n, trace reaped_duo = trace duo ++ repeat Access (S n) ∧
       guarded false (repeat Access (S n)) = false.
Proof.
  apply (synch_update_takes_no_lock 3 duo reaped_duo). exact duo_reaped.
Defined.

(** ** More on numbers *)

Lemma inject_Z_pos (z : Z) : 0 < z → (0 < inject_Z z)%Q.
Proof. intros Hz. change 0%Q with (inject_Z 0). by rewrite <- Zlt_Qlt. Qed.

Lemma inject_Z_nonneg (z : Z) : 0 <= z → (0 <= inject_Z z)%Q.
Proof. intros Hz. change 0%Q with (inject_Z 0). by rewrite <- Zle_Qle. Qed.

(** ** More on envelopes *)

Lemma load_loop_content (sscanf_ff : string → option (Q * Q)) (fuel : nat) :
  ∀ (file : string) (l : Datatypes.list Breakpoint) (t : Q) (bp : Breakpoints),
    load_loop sscanf_ff fuel file l t = Loaded bp →
    Forall (λ line, is_Some (sscanf_ff line)) (lines_of fuel file) ∧
    list bp = l ++ (stored <$> omap sscanf_ff (lines_of fuel file)).
Proof.
  induction fuel as [|fuel IH]; intros file l t bp Hload; [done|].
  simpl in Hload. simpl. destruct (fgets 255 file) as [[line rest]|].
  2:{ injection Hload as <-. simpl. by rewrite app_nil_r. }
  destruct (sscanf_ff line) as [[t' v']|] eqn:Hscan; [|done].
  assert (load_loop sscanf_ff fuel rest (l ++ [mkBreakpoint t' v']) t' = Loaded bp)
    as Hrest.
  { destruct (last l); [destruct (fltb _ _)|destruct (fneb _ _)]; done. }
  apply IH in Hrest as [Hall Hlist]. split.
  - constructor; [by rewrite Hscan|done].
  - rewrite Hlist. simpl. rewrite Hscan. simpl. by rewrite <- app_assoc.
Qed.

Lemma load_bp_file_content (sscanf_ff : string → option (Q * Q)) (uninit : Q)
    (file : string) (bp : Breakpoints) :
  load_bp_file sscanf_ff uninit file = Loaded bp →
  Forall (λ line, is_Some (sscanf_ff line)) (file_lines file) ∧
  list bp = stored <$> omap sscanf_ff (file_lines file) ∧
  len bp = Z.of_nat (length (file_lines file)).
Proof.
  intros Hload. apply load_loop_content in Hload as [Hall Hlist].
  unfold file_lines. split; [exact Hall|]. split; [exact Hlist|].
  unfold len. rewrite Hlist, app_nil_l, length_fmap. f_equal.
  clear Hlist. revert Hall. generalize (lines_of (S (String.length file)) file).
  intros ls Hall. induction Hall as [|line ls [p Hp] _ IH]; [done|].
  cbn [omap list_omap]. rewrite Hp. cbn [length]. by rewrite IH.
Qed.

(** X1.  What a load hands back: every line of the file scans, and the
    breakpoints are what the lines scan to, one per line and in order;
    their times never go down, the first one is 0, and [maxtime] is the
    time of the last one. *)
Theorem load_bp_file_envelope (sscanf_ff : string → option (Q * Q)) (uninit : Q)
    (file : string) (bp : Breakpoints) :
  load_bp_file sscanf_ff uninit file = Loaded bp →
  Forall (λ line, is_Some (sscanf_ff line)) (file_lines file) ∧
  list bp = stored <$> omap sscanf_ff (file_lines file) ∧
  len bp = Z.of_nat (length (file_lines file)) ∧
  ascending (list bp) ∧
  (∀ b, head (list bp) = Some b → (time b == 0)%Q) ∧
  (∀ b, last (list bp) = Some b → maxtime bp = time b).
Proof.
  intros Hload.
  destruct (load_bp_file_content _ _ _ _ Hload) as (Hall & Hlist & Hlen).
  destruct (load_bp_file_loaded _ _ _ _ Hload) as (Hasc & Hmax & Hzero).
  repeat split; try done. intros b Hb. symmetry. by apply Hmax.
Qed.

(** X2.  The empty file is no error: it loads as an envelope without
    breakpoints whose [maxtime] was never assigned, and it is the only
    file that loads without breakpoints. *)
Theorem load_bp_file_empty (sscanf_ff : string → option (Q * Q)) (uninit : Q) :
  load_bp_file sscanf_ff uninit EmptyString =
    Loaded {| list := []; maxtime := uninit |} ∧
  (∀ file bp, load_bp_file sscanf_ff uninit file = Loaded bp →
              list bp = [] → file = EmptyString).
Proof.
  split; [done|]. intros file bp Hload Hnil.
  apply load_bp_file_content in Hload as (_ & _ & Hlen).
  unfold len in Hlen. rewrite Hnil in Hlen. simpl in Hlen.
  destruct file as [|c s]; [done|].
  unfold file_lines in Hlen. cbn [String.length lines_of] in Hlen.
  unfold fgets in Hlen. destruct (fgets_chars _ _) as [line rest].
  cbn [length] in Hlen. lia.
Qed.

Lemma ascending_le (l : Datatypes.list Breakpoint) (i j : nat) (a b : Breakpoint) :
  ascending l → l !! i = Some a → l !! j = Some b → (i <= j)%nat →
  (time a <= time b)%Q.
Proof.
  intros Hasc Ha Hb Hij. revert b Hb.
  induction Hij as [|j Hij IH]; intros b Hb.
  - rewrite Ha in Hb. injection Hb as <-. apply Qle_refl.
  - destruct (lookup_lt_is_Some_2 l j) as [c Hc].
    { apply lookup_lt_Some in Hb. lia. }
    apply (Qle_trans _ (time c)); [by apply IH|]. by apply (Hasc j).
Qed.

Lemma list_at_nat (bp : Breakpoints) (i : nat) :
  list_at bp (Z.of_nat i) = list bp !! i.
Proof.
  unfold list_at. destruct (Z.ltb_spec (Z.of_nat i) 0); [lia|].
  by rewrite Nat2Z.id.
Qed.

(** The loop stops at the first breakpoint whose successor lies after [t]. *)
Lemma scan_loop_stops (bp : Breakpoints) (t : Q) (i : nat) (b : Breakpoint) :
  list bp !! S i = Some b → (t < time b)%Q →
  ∀ (fuel j : nat),
    (j <= i)%nat → (i - j < fuel)%nat →
    (∀ k c, (j <= k < i)%nat → list bp !! S k = Some c → (time c <= t)%Q) →
    scan_loop fuel bp t (Z.of_nat j) = Some (Z.of_nat i).
Proof.
  intros Hb Hlt. induction fuel as [|fuel IH]; intros j Hji Hfuel Hbefore; [lia|].
  apply lookup_lt_Some in Hb as Hlen.
  cbn [scan_loop]. destruct (Z.ltb_spec (Z.of_nat j) (len bp - 1)) as [_|Hge].
  2:{ unfold len in Hge. lia. }
  replace (Z.of_nat j + 1) with (Z.of_nat (S j)) by lia. rewrite list_at_nat.
  destruct (decide (j = i)) as [->|Hne].
  - rewrite Hb. simpl. by apply fgtb_gt in Hlt as ->.
  - destruct (lookup_lt_is_Some_2 (list bp) (S j)) as [c Hc]; [lia|].
    rewrite Hc. simpl.
    assert (fgtb (time c) t = false) as ->.
    { apply fgtb_le. apply (Hbefore j); [lia|done]. }
    replace (Z.of_nat j + 1) with (Z.of_nat (S j)) by lia.
    apply IH; [lia..|]. intros k d Hk. apply Hbefore. lia.
Qed.

(** X3.  Between two neighbouring breakpoints [a] and [b] of an ascending
    envelope, [get_timeval] prints nothing and returns the value on the
    straight line from [a] to [b]: it lies between the two values and is
    the value of [a] at the time of [a]. *)
Theorem get_timeval_interpolates (bp : Breakpoints) (t : Q) (i : nat)
    (a b : Breakpoint) :
  ascending (list bp) → list bp !! i = Some a → list bp !! S i = Some b →
  (0 <= t)%Q → (time a <= t)%Q → (t < time b)%Q →
  ∃ v, get_timeval bp t = {| printed := None; returned := Amp v |} ∧
       (v == val a + (val b - val a) * ((t - time a) / (time b - time a)))%Q ∧
       ((val a <= val b)%Q → (val a <= v <= val b)%Q) ∧
       ((val b <= val a)%Q → (val b <= v <= val a)%Q) ∧
       ((t == time a)%Q → (v == val a)%Q).
Proof.
  intros Hasc Ha Hb Ht Hat Htb.
  assert (scan_loop (length (list bp)) bp t 0 = Some (Z.of_nat i)) as Hscan.
  { apply (scan_loop_stops bp t i b Hb Htb _ O); [lia| |].
    - apply lookup_lt_Some in Hb. lia.
    - intros k c Hk Hc. apply (Qle_trans _ (time a)); [|done].
      apply (ascending_le (list bp) (S k) i c a); [done..|lia]. }
  eexists. split.
  { unfold get_timeval. apply fltb_ge in Ht as ->.
    apply lookup_lt_Some in Hb as Hlen.
    destruct (Z.eqb_spec (len bp) 0) as [Hz|_]; [unfold len in Hz; lia|].
    rewrite Hscan. simpl. unfold after_loop.
    destruct (Z.eqb_spec (Z.of_nat i) (len bp)) as [Hz|_]; [unfold len in Hz; lia|].
    replace (Z.of_nat i + 1) with (Z.of_nat (S i)) by lia.
    rewrite !list_at_nat, Ha, Hb. simpl. reflexivity. }
  set (f := ((t - time a) / (time b - time a))%Q).
  assert (fadd (val a) (fmul (fsub (val b) (val a))
            (fdiv (fsub t (time a)) (fsub (time b) (time a))))
          == val a + (val b - val a) * f)%Q as Hv.
  { unfold fadd, fmul, fdiv, fsub, f. by rewrite !Qred_correct. }
  assert (0 < time b - time a)%Q as Hdt by lra.
  assert (0 <= f)%Q as Hf0.
  { unfold f. apply Qle_shift_div_l; [done|]. lra. }
  assert (f <= 1)%Q as Hf1.
  { unfold f. apply Qle_shift_div_r; [done|]. lra. }
  split; [done|]. split; [|split].
  - intros Hab. rewrite Hv. split; nra.
  - intros Hba. rewrite Hv. split; nra.
  - intros Heq. rewrite Hv.
    assert (f <= 0)%Q as Hf.
    { unfold f. apply Qle_shift_div_r; [done|]. lra. }
    assert (f == 0)%Q as Hz by lra. rewrite Hz. lra.
Qed.

(** ** More on the oscillator *)

Lemma oscil_tick_out_of_range (o : Oscillator) :
  out_of_range o = true → oscil_tick o = (bump_sample o, Amp 0).
Proof. unfold oscil_tick. by intros ->. Qed.

Lemma ticked_phase (o : Oscillator) (n : nat) :
  in_int (curr_sample o) → curr_sample o + Z.of_nat n <= INT_MAX →
  let k := curr_sample o + Z.of_nat n in
  (oscil_expired (ticked n o) = true ↔ (slength o < inject_Z k)%Q) ∧
  (out_of_range (ticked n o) = true ↔ k < 0 ∨ (slength o < inject_Z k)%Q).
Proof.
  intros Hint Hmax k.
  pose proof (ticked_curr_sample n o Hint Hmax) as Hcs. fold k in Hcs.
  destruct (ticked_settings n o) as (_&_&_&_&_&_& Hsl &_).
  split.
  - by rewrite oscil_expired_iff, Hsl, Hcs.
  - by rewrite out_of_range_iff, Hsl, Hcs.
Qed.





Lemma expired_tick_silent (o : Oscillator) (n : nat) :
  oscil_expired o = true →
  in_int (curr_sample o) → curr_sample o + Z.of_nat n <= INT_MAX →
  oscil_expired (ticked n o) = true ∧ (oscil_tick (ticked n o)).2 = Amp 0.
Proof.
  intros Hexp Hint Hmax.
  destruct (ticked_phase o n Hint Hmax) as [Hexpn Houtn].
  apply oscil_expired_iff in Hexp. unfold float_of_int in Hexp.
  assert (slength o < inject_Z (curr_sample o + Z.of_nat n))%Q as Hlt.
  { apply (Qlt_le_trans _ (inject_Z (curr_sample o))); [done|].
    rewrite <- Zle_Qle. lia. }
  split; [by apply Hexpn|].
  rewrite oscil_tick_out_of_range; [done|]. apply Houtn. by right.
Qed.

(** X6.  An expired oscillator stays expired and silent, and its ticks change
    nothing but the counter. *)
Theorem oscil_expired_stays (o : Oscillator) (n : nat) :
  oscil_expired o = true →
  in_int (curr_sample o) → curr_sample o + Z.of_nat n <= INT_MAX →
  oscil_expired (ticked n o) = true ∧
  (oscil_tick (ticked n o)).2 = Amp 0 ∧
  index (ticked n o) = index o ∧ inc (ticked n o) = inc o ∧
  curr_t (ticked n o) = curr_t o.
Proof.
  intros Hexp Hint. induction n as [|n IH]; intros Hmax.
  - by destruct (expired_tick_silent o 0 Hexp Hint Hmax).
  - destruct IH as (He & Ht & Hi & Hc & Hct); [lia|].
    destruct (expired_tick_silent o (S n) Hexp Hint Hmax) as [He' Ht'].
    assert (ticked (S n) o = bump_sample (ticked n o)) as Hstep.
    { simpl. rewrite oscil_tick_out_of_range; [done|].
      apply out_of_range_iff. right. by apply oscil_expired_iff. }
    split; [done|]. split; [done|]. rewrite Hstep. simpl. done.
Qed.

(** X7.  With an increment from 0 to [tablen], the index stays from 0 to
    [tablen] at every tick ([tablen] itself is not excluded). *)
Theorem ticked_index_bounds (o : Oscillator) (n : nat) :
  0 <= index o <= tablen o →
  0 <= increment (freq o) (tablen o) (oscillator.samplerate o) <= tablen o →
  2 * tablen o <= INT_MAX →
  0 <= index (ticked n o) <= tablen o.
Proof.
  intros Hidx Hinc Hmax. induction n as [|n IH]; [done|]. simpl.
  destruct (ticked_settings n o) as (_&_& Htl &_& Hfr &_&_& Hsr &_).
  unfold oscil_tick. destruct (out_of_range (ticked n o)); [done|]. simpl.
  rewrite Htl, Hfr, Hsr.
  apply (next_index_bounds (tablen o) (index (ticked n o))); done.
Qed.

(** ** The lookup tables *)

Lemma lookup_repeat_lt {A : Type} (x : A) (n i : nat) :
  (i < n)%nat → repeat x n !! i = Some x.
Proof.
  revert i. induction n as [|n IH]; intros [|i] Hi; simpl; try lia; [done|].
  apply IH. lia.
Qed.

Lemma sum_repeat (x : Q) (n : nat) :
  (foldr Qplus 0 (repeat x n) == inject_Z (Z.of_nat n) * x)%Q.
Proof.
  induction n as [|n IH]; [simpl; symmetry; apply Qmult_0_l|].
  cbn [repeat foldr]. rewrite IH, Nat2Z.inj_succ. unfold Z.succ.
  rewrite inject_Z_plus. change (inject_Z 1) with 1%Q. ring.
Qed.

(** X8.  The square table has [len] entries: 1 below [len/2], -1 from there on.
    The entries add up to 0 when [len] is even and to -1 when it is odd. *)
Theorem gen_square_tab_shape (len : Z) :
  0 <= len →
  length (gen_square_tab len) = Z.to_nat len ∧
  (∀ i, 0 <= i < len →
        gen_square_tab len !! Z.to_nat i =
          Some (if i <? len `quot` 2 then 1%Q else (-1)%Q)) ∧
  (foldr Qplus 0 (gen_square_tab len) == if Z.even len then 0 else -1)%Q.
Proof.
  intros Hlen. unfold gen_square_tab.
  assert (0 <= len `quot` 2 <= len) as Hh.
  { rewrite Z.quot_div_nonneg by lia. split; [by apply Z.div_pos|].
    apply Z.div_le_upper_bound; lia. }
  split; [|split].
  - rewrite length_app, !repeat_length. lia.
  - intros i Hi. destruct (Z.ltb_spec i (len `quot` 2)).
    + rewrite lookup_app_l by (rewrite repeat_length; lia).
      apply lookup_repeat_lt. lia.
    + rewrite lookup_app_r by (rewrite repeat_length; lia).
      rewrite repeat_length. apply lookup_repeat_lt. lia.
  - rewrite foldr_app.
    assert (∀ (l : Datatypes.list Q) (a : Q),
              (foldr Qplus a l == foldr Qplus 0 l + a)%Q) as Hacc.
    { intros l a. induction l as [|y l IH]; simpl; [lra|]. rewrite IH. lra. }
    rewrite Hacc, !sum_repeat, !Z2Nat.id by lia.
    rewrite Z.quot_div_nonneg in * by lia.
    pose proof (Z.div_mod len 2 ltac:(lia)) as Hdm.
    rewrite Zeven_mod. destruct (Z.eqb_spec (len mod 2) 0) as [Hev|Hodd].
    + replace (len - len / 2) with (len / 2) by lia. lra.
    + pose proof (Z.mod_pos_bound len 2 ltac:(lia)).
      replace (len - len / 2) with (len / 2 + 1) by lia.
      rewrite inject_Z_plus. change (inject_Z 1) with 1%Q. ring.
Qed.

Lemma Qred_eq (x y : Q) : (x == y)%Q → Qred x = Qred y.
Proof. apply Qred_complete. Qed.

Lemma lookup_gen_triangle_tab (len i : Z) :
  0 <= i < len → len <= INT_MAX →
  gen_triangle_tab len !! Z.to_nat i =
    Some (if i <? len `quot` 2
          then fadd (float_of_int (-1))
                 (fdiv (float_of_int (2 * i)) (float_of_int (len `quot` 2 - 1)))
          else fsub (float_of_int 1)
                 (fdiv (float_of_int (2 * (i - len `quot` 2)))
                       (float_of_int (len `quot` 2)))).
Proof.
  intros Hi Hmax. unfold gen_triangle_tab.
  rewrite list_lookup_fmap, lookup_seqZ_lt by lia. simpl.
  rewrite Z2Nat.id by lia.
  assert (0 <= len `quot` 2 ∧ 2 * (len `quot` 2) <= len <= 2 * (len `quot` 2) + 1)
    as [Hh0 Hh].
  { rewrite Z.quot_div_nonneg by lia.
    pose proof (Z.div_mod len 2 ltac:(lia)).
    pose proof (Z.mod_pos_bound len 2 ltac:(lia)). lia. }
  rewrite Z.add_0_l.
  destruct (Z.ltb_spec i (len `quot` 2));
    (rewrite wrap32_in_range; [done|]);
    unfold in_int, INT_MIN, INT_MAX in *; lia.
Qed.

(** X9.  The triangle table of a length from 4 on has [len] entries, all from
    -1 to 1; it starts at -1 and holds its peak 1 twice, at [len/2 - 1]
    and at [len/2]. *)
Theorem gen_triangle_tab_range (len : Z) :
  4 <= len <= INT_MAX →
  length (gen_triangle_tab len) = Z.to_nat len ∧
  (∀ i x, gen_triangle_tab len !! i = Some x → (-1 <= x <= 1)%Q) ∧
  gen_triangle_tab len !! O = Some (-1)%Q ∧
  gen_triangle_tab len !! Z.to_nat (len `quot` 2 - 1) = Some 1%Q ∧
  gen_triangle_tab len !! Z.to_nat (len `quot` 2) = Some 1%Q.
Proof.
  intros [Hlen Hmax]. set (h := len `quot` 2).
  assert (2 <= h ∧ 2 * h <= len <= 2 * h + 1) as (Hh & Hlo & Hhi).
  { unfold h. rewrite Z.quot_div_nonneg by lia.
    pose proof (Z.div_mod len 2 ltac:(lia)).
    pose proof (Z.mod_pos_bound len 2 ltac:(lia)). lia. }
  assert (0 < inject_Z (h - 1))%Q as Hh1 by (apply inject_Z_pos; lia).
  assert (0 < inject_Z h)%Q as Hh0 by (apply inject_Z_pos; lia).
  split; [|split; [|split; [|split]]].
  - unfold gen_triangle_tab. by rewrite length_fmap, length_seqZ.
  - intros i x Hx.
    assert (0 <= Z.of_nat i < len) as Hi.
    { apply lookup_lt_Some in Hx. unfold gen_triangle_tab in Hx.
      rewrite length_fmap, length_seqZ in Hx. lia. }
    rewrite <- (Nat2Z.id i), lookup_gen_triangle_tab in Hx by done.
    injection Hx as <-. fold h.
    destruct (Z.ltb_spec (Z.of_nat i) h) as [Hlt|Hge];
      unfold fadd, fsub, fdiv, float_of_int; rewrite !Qred_correct.
    + assert (0 <= inject_Z (2 * Z.of_nat i) / inject_Z (h - 1) <= 2)%Q as [? ?].
      { split.
        - apply Qle_shift_div_l; [done|]. rewrite Qmult_0_l. apply inject_Z_nonneg. lia.
        - apply Qle_shift_div_r; [done|].
          change 2%Q with (inject_Z 2). rewrite <- inject_Z_mult, <- Zle_Qle. lia. }
      change (inject_Z (-1)) with (-1)%Q. split; lra.
    + assert (0 <= inject_Z (2 * (Z.of_nat i - h)) / inject_Z h <= 2)%Q as [? ?].
      { split.
        - apply Qle_shift_div_l; [done|]. rewrite Qmult_0_l. apply inject_Z_nonneg. lia.
        - apply Qle_shift_div_r; [done|].
          change 2%Q with (inject_Z 2). rewrite <- inject_Z_mult, <- Zle_Qle. lia. }
      change (inject_Z 1) with 1%Q. split; lra.
  - change O with (Z.to_nat 0). rewrite lookup_gen_triangle_tab by lia. fold h.
    destruct (Z.ltb_spec 0 h); [|lia]. by f_equal.
  - rewrite lookup_gen_triangle_tab by lia. fold h.
    destruct (Z.ltb_spec (h - 1) h); [|lia]. f_equal.
    unfold fadd, fdiv, float_of_int. transitivity (Qred 1); [|done].
    apply Qred_eq. rewrite Qred_correct.
    rewrite inject_Z_mult. change (inject_Z (-1)) with (-1)%Q.
    change (inject_Z 2) with 2%Q. field. lra.
  - rewrite lookup_gen_triangle_tab by lia. fold h.
    destruct (Z.ltb_spec h h); [lia|]. f_equal.
    unfold fsub, fdiv, float_of_int. transitivity (Qred 1); [|done].
    apply Qred_eq. rewrite Qred_correct, Z.sub_diag.
    unfold Qdiv. change (inject_Z (2 * 0)) with 0%Q. change (inject_Z 1) with 1%Q. ring.
Qed.

(** ** More on the linked list *)

Lemma remove_loop_absent (l : Datatypes.list (loc * Oscillator)) :
  ∀ (fuel : nat) (h : gmap loc OscilNode) (pv p : option loc) (i : Z),
    seg h pv p l None → Forall (λ x, id x.2 ≠ i) l → (length l < fuel)%nat →
    remove_loop fuel h p i = Some h.
Proof.
  induction l as [|[b ob] l IH]; intros fuel h pv p i Hseg Hids Hfuel;
    destruct fuel as [|fuel]; simpl in Hfuel; try lia.
  - simpl in Hseg. by subst p.
  - destruct Hseg as (-> & nx & Hb & Hl).
    apply Forall_cons in Hids as [Hne Hids]. simpl in Hne.
    cbn [remove_loop]. rewrite Hb. simpl.
    apply Z.eqb_neq in Hne. rewrite Hne.
    apply (IH fuel h (Some b)); [done..|lia].
Qed.

Lemma oscil_list_remove_absent (fuel : nat) (h : gmap loc OscilNode)
    (head : option loc) (l : Datatypes.list (loc * Oscillator)) (i : Z) :
  is_osc_list h head l → (length l < fuel)%nat →
  Forall (λ x, id x.2 ≠ i) l →
  oscil_list_remove fuel h head i = Some (h, head).
Proof.
  intros [Hseg Hnd] Hfuel Hids. unfold oscil_list_remove.
  destruct l as [|[c oc] l].
  - simpl in Hseg. by subst head.
  - pose proof Hseg as (-> & nx & Hc & _). rewrite Hc. simpl.
    pose proof Hids as [Hne _]%Forall_cons. simpl in Hne.
    apply Z.eqb_neq in Hne. rewrite Hne.
    by rewrite (remove_loop_absent ((c, oc) :: l) fuel h None (Some c) i).
Qed.

Lemma oscil_list_remove_first (fuel : nat) (h : gmap loc OscilNode)
    (head : option loc) (k t : Datatypes.list (loc * Oscillator))
    (a : loc) (o : Oscillator) :
  is_osc_list h head (k ++ (a, o) :: t) →
  (length (k ++ (a, o) :: t) < fuel)%nat →
  Forall (λ x, id x.2 ≠ id o) k →
  ∃ h' head',
    oscil_list_remove fuel h head (id o) = Some (h', head') ∧
    is_osc_list h' head' (k ++ t) ∧
    h' !! a = None ∧
    (∀ b, b ∉ (k ++ (a, o) :: t).*1 → h' !! b = h !! b).
Proof.
  intros [Hseg Hnd] Hfuel Hk.
  destruct (unlink_spec h head k t a o) as (h' & Ha & Hun & Hseg' & Hgone & Hfr);
    [done..|].
  exists h', (match k with [] => head_loc t None | _ :: _ => head end).
  split; [|split; [|done]].
  - destruct k as [|[c oc] k].
    + simpl in Hseg. destruct Hseg as (-> & _).
      unfold oscil_list_remove. rewrite Ha. simpl.
      rewrite Z.eqb_refl.
      unfold unlink in Hun. simpl in Hun.
      destruct (store_if _ _ h) as [h2|]; [|done]. simpl in *.
      by injection Hun as <-.
    + pose proof Hseg as Hseg0. destruct Hseg as (-> & nx & Hc & _).
      unfold oscil_list_remove. rewrite Hc. simpl.
      pose proof Hk as [Hne _]%Forall_cons. simpl in Hne.
      apply Z.eqb_neq in Hne. rewrite Hne.
      apply seg_app in Hseg0 as (m & Hsegk & Hm).
      destruct Hm as (-> & _).
      rewrite length_app in Hfuel.
      rewrite (remove_loop_finds ((c, oc) :: k) fuel h None (Some c) a
                 (mkOscilNode (head_loc t None) (last_loc None ((c, oc) :: k)) o)
                 (id o)); [by rewrite Hun|done..|simpl in *; lia].
  - split; [exact Hseg'|].
    by destruct (NoDup_fmap_drop_middle fst k t (a, o) Hnd).
Qed.

(** X10.  [oscil_list_remove] frees the first node that carries the id and
    relinks its neighbours; nodes behind it with the same id stay.  A list
    without the id is left as it is. *)
Theorem oscil_list_remove_by_id (fuel : nat) (h : gmap loc OscilNode)
    (head : option loc) (l : Datatypes.list (loc * Oscillator)) (i : Z) :
  is_osc_list h head l → (length l < fuel)%nat →
  (Forall (λ x, id x.2 ≠ i) l →
     oscil_list_remove fuel h head i = Some (h, head)) ∧
  (∀ k t a o,
     l = k ++ (a, o) :: t → id o = i → Forall (λ x, id x.2 ≠ i) k →
     ∃ h' head',
       oscil_list_remove fuel h head i = Some (h', head') ∧
       is_osc_list h' head' (k ++ t) ∧
       h' !! a = None ∧
       (∀ b, b ∉ l.*1 → h' !! b = h !! b)).
Proof.
  intros Hl Hfuel. split.
  - by apply oscil_list_remove_absent.
  - intros k t a o -> <- Hk. by apply oscil_list_remove_first.
Qed.

(** X11.  [oscil_list_add] allocates a node that was not in use and links it
    behind the last node; the list is the old one with the new oscillator
    at its end. *)
Theorem oscil_list_add_appends (fuel : nat) (h : gmap loc OscilNode)
    (head : option loc) (l : Datatypes.list (loc * Oscillator)) (o : Oscillator) :
  is_osc_list h head l → (length l <= fuel)%nat →
  ∃ h' head',
    oscil_list_add fuel h head o = Some (h', head') ∧
    is_osc_list h' head' (l ++ [(fresh (dom h), o)]) ∧
    h !! fresh (dom h) = None ∧
    (l ≠ [] → head' = head).
Proof.
  intros Hl Hfuel.
  destruct (oscil_list_add_spec fuel h head l o Hl Hfuel) as (h' & head' & Hadd & Hl').
  exists h', head'. split; [done|]. split; [done|]. split.
  - apply not_elem_of_dom, is_fresh.
  - intros Hne. destruct l as [|[a oa] l]; [done|].
    destruct Hl as [Hs _], Hl' as [Hs' _].
    rewrite (seg_head _ _ _ _ _ Hs), (seg_head _ _ _ _ _ Hs'). done.
Qed.

(** X12.  Adding an oscillator whose id is not in the list and removing that id
    gives the list back. *)
Theorem oscil_list_add_remove (fuel : nat) (h : gmap loc OscilNode)
    (head : option loc) (l : Datatypes.list (loc * Oscillator)) (o : Oscillator) :
  is_osc_list h head l → (S (length l) < fuel)%nat →
  Forall (λ x, id x.2 ≠ id o) l →
  ∃ h1 head1 h2 head2,
    oscil_list_add fuel h head o = Some (h1, head1) ∧
    oscil_list_remove fuel h1 head1 (id o) = Some (h2, head2) ∧
    is_osc_list h2 head2 l ∧
    head2 = head ∧
    (∀ b, is_Some (h !! b) → b ∉ l.*1 → h2 !! b = h !! b).
Proof.
  intros Hl Hfuel Hids.
  destruct (oscil_list_add_spec fuel h head l o Hl) as (h1 & head1 & Hadd & Hl1); [lia|].
  destruct (oscil_list_remove_first fuel h1 head1 l [] (fresh (dom h)) o Hl1)
    as (h2 & head2 & Hrm2 & Hl2 & Hgone & Hfr); [|done|].
  { rewrite length_app. simpl. lia. }
  rewrite app_nil_r in Hl2.
  exists h1, head1, h2, head2. split; [done|]. split; [done|]. split; [done|]. split.
  - destruct Hl as [Hs _], Hl2 as [Hs2 _].
    rewrite (seg_head _ _ _ _ _ Hs), (seg_head _ _ _ _ _ Hs2). done.
  - intros b [n Hb] Hbl.
    assert (b ≠ fresh (dom h)) as Hne.
    { intros ->. pose proof (is_fresh (dom h)) as Hf.
      apply not_elem_of_dom in Hf. congruence. }
    rewrite Hfr.
    + (* the cells outside the list are those [oscil_list_add] left alone *)
      unfold oscil_list_add in Hadd. destruct head as [hd|].
      * destruct (last_node fuel h hd) as [c|] eqn:Hlast; [|done]. simpl in Hadd.
        unfold store in Hadd. destruct (h !! c) as [nc|] eqn:Hc; [|done].
        simpl in Hadd. injection Hadd as <- <-.
        rewrite lookup_insert_ne by done.
        apply lookup_insert_ne. intros ->. apply Hbl.
        destruct l as [|[a oa] l]; [by destruct Hl as [[=] _]|].
        destruct Hl as [Hs _]. pose proof Hs as (Heq & _). injection Heq as ->.
        rewrite (last_node_spec l fuel h None a oa Hs) in Hlast by (simpl in *; lia).
        destruct (last_loc_elem None ((a, oa) :: l)) as (c' & Hc' & Hin); [done|].
        rewrite Hlast in Hc'. by injection Hc' as <-.
      * injection Hadd as <- <-. by apply lookup_insert_ne.
    + rewrite fmap_app. apply not_elem_of_app. split; [done|].
      simpl. apply not_elem_of_cons. split; [done|]. apply not_elem_of_nil.
Qed.

(** X13.  [oscil_list_free] frees every node of the list and nothing else. *)
Lemma oscil_list_free_seg (l : Datatypes.list (loc * Oscillator)) :
  ∀ (fuel : nat) (h : gmap loc OscilNode) (pv p : option loc),
    seg h pv p l None → NoDup l.*1 → (length l < fuel)%nat →
    ∃ h', oscil_list_free fuel h p = Some h' ∧
          (∀ a, a ∈ l.*1 → h' !! a = None) ∧
          (∀ b, b ∉ l.*1 → h' !! b = h !! b).
Proof.
  induction l as [|[a o] l IH]; intros fuel h pv p Hseg Hnd Hfuel;
    destruct fuel as [|fuel]; simpl in Hfuel; try lia.
  - simpl in Hseg. subst p. exists h. split; [done|]. split; [|done].
    intros a Ha. by apply elem_of_nil in Ha.
  - destruct Hseg as (-> & nx & Ha & Hl).
    apply NoDup_cons in Hnd as [Hnotin Hnd].
    cbn [oscil_list_free]. rewrite Ha. simpl.
    destruct (IH fuel (delete a h) (Some a) nx) as (h' & Hrun & Hfreed & Hfr);
      [|done|lia|].
    { apply (seg_frame h); [|done]. intros b Hb.
      apply lookup_delete_ne. by intros ->. }
    exists h'. split; [done|]. split.
    + intros b Hb. apply elem_of_cons in Hb as [->|Hb]; [|by apply Hfreed].
      rewrite Hfr by done. apply lookup_delete_eq.
    + intros b Hb. apply not_elem_of_cons in Hb as [Hne Hb].
      rewrite Hfr by done. by apply lookup_delete_ne.
Qed.

Theorem oscil_list_free_all (fuel : nat) (h : gmap loc OscilNode)
    (head : option loc) (l : Datatypes.list (loc * Oscillator)) :
  is_osc_list h head l → (length l < fuel)%nat →
  ∃ h', oscil_list_free fuel h head = Some h' ∧
        (∀ a, a ∈ l.*1 → h' !! a = None) ∧
        (∀ b, b ∉ l.*1 → h' !! b = h !! b).
Proof. intros [Hseg Hnd] Hfuel. by apply (oscil_list_free_seg l fuel h None). Qed.

(** ** More on the player *)

Lemma audio_player_callback_run (fuel frames : nat) (w : world)
    (l : Datatypes.list (loc * Oscillator)) :
  holds w l → (length l < fuel)%nat →
  ∃ w',
    audio_player_callback fuel w frames = Some (w', mix l <$> seq 0 frames) ∧
    holds w' (ticked_list frames l) ∧
    (∀ a, a ∉ l.*1 → mem w' !! a = mem w !! a) ∧
    player w' =
      {| osc_list := osc_list (player w);
         osc_list_lock := false;
         write_output := write_output (player w);
         outfile := if write_output (player w)
                    then outfile (player w) ++ (mix l <$> seq 0 frames)
                    else outfile (player w);
         audio_player.samplerate := audio_player.samplerate (player w) |} ∧
    trace w' =
      trace w ++ Lock :: repeat Access (frames * S (length l)) ++ [Unlock].
Proof.
  intros Hl Hfuel. unfold audio_player_callback.
  destruct (render_spec frames fuel (pthread_mutex_lock w) l)
    as (w2 & Hrun & [Hseg Hnd] & Hfr & Hpl & Htr); [done..|].
  rewrite Hrun. cbn [mbind option_bind].
  eexists. split; [done|].
  assert (write_output (player (pthread_mutex_unlock w2)) = write_output (player w))
    as Hw3 by (simpl; by rewrite Hpl).
  assert (osc_list (player w2) = osc_list (player w)) as Hhd by (by rewrite Hpl).
  rewrite Hw3.
  split; [|split; [|split]].
  - split; [|done]. by destruct (write_output (player w)).
  - intros a Ha. change (mem w !! a) with (mem (pthread_mutex_lock w) !! a).
    rewrite <- (Hfr a Ha). by destruct (write_output (player w)).
  - destruct (write_output (player w)) eqn:Hwo; simpl; rewrite Hpl; simpl;
      by rewrite ?Hwo.
  - destruct (write_output (player w)); simpl; rewrite Htr; simpl;
      by rewrite <- !app_assoc.
Qed.

(** X14.  The callback locks the mutex once, makes all its accesses to the list
    under it and releases it; the list starts where it started, and the
    samples returned have been appended to the output file exactly when
    [write_output] is set. *)
Theorem audio_player_callback_output (fuel frames : nat) (w : world)
    (l : Datatypes.list (loc * Oscillator)) :
  holds w l → (length l < fuel)%nat →
  ∃ w' out k,
    audio_player_callback fuel w frames = Some (w', out) ∧
    trace w' = trace w ++ Lock :: repeat Access k ++ [Unlock] ∧
    guarded false (Lock :: repeat Access k ++ [Unlock]) = true ∧
    osc_list_lock (player w') = false ∧
    osc_list (player w') = osc_list (player w) ∧
    outfile (player w') =
      (if write_output (player w) then outfile (player w) ++ out
       else outfile (player w)).
Proof.
  intros Hl Hfuel.
  destruct (audio_player_callback_run fuel frames w l Hl Hfuel)
    as (w' & Hrun & _ & _ & Hpl & Htr).
  exists w', (mix l <$> seq 0 frames), (frames * S (length l))%nat.
  split; [done|]. split; [done|]. split.
  - simpl. by rewrite guarded_accesses.
  - by rewrite Hpl.
Qed.

(** X15.  Rendering [m] frames and then [n] frames gives the samples and the
    oscillators that rendering [m + n] frames at once gives. *)
Theorem audio_player_callback_blocks (fuel m n : nat) (w : world)
    (l : Datatypes.list (loc * Oscillator)) :
  holds w l → (length l < fuel)%nat →
  ∃ w1 out1 w2 out2 w12 out12,
    audio_player_callback fuel w m = Some (w1, out1) ∧
    audio_player_callback fuel w1 n = Some (w2, out2) ∧
    audio_player_callback fuel w (m + n) = Some (w12, out12) ∧
    out12 = out1 ++ out2 ∧
    holds w2 (ticked_list (m + n) l) ∧ holds w12 (ticked_list (m + n) l).
Proof.
  intros Hl Hfuel.
  destruct (audio_player_callback_run fuel m w l Hl Hfuel) as (w1 & Hr1 & Hl1 & _).
  destruct (audio_player_callback_run fuel n w1 (ticked_list m l) Hl1)
    as (w2 & Hr2 & Hl2 & _).
  { unfold ticked_list. by rewrite length_fmap. }
  destruct (audio_player_callback_run fuel (m + n) w l Hl Hfuel)
    as (w12 & Hr12 & Hl12 & _).
  eexists _, _, _, _, _, _. split; [done|]. split; [done|]. split; [done|].
  split; [|split; [|done]].
  - rewrite seq_app, fmap_app. f_equal. simpl.
    pose proof (fmap_add_seq m 0 n) as Hs. rewrite Nat.add_0_r in Hs.
    rewrite <- Hs, <- list_fmap_compose.
    apply list_fmap_ext. intros _ i _. simpl.
    by rewrite mix_ticked_list, Nat.add_comm.
  - rewrite ticked_list_add, Nat.add_comm in Hl2. done.
Qed.


Lemma free_loop_spec (t : Datatypes.list (loc * Oscillator)) :
  ∀ (fuel inner : nat) (w : world),
    holds w t → (length t < fuel)%nat → (length t < inner)%nat →
    ∃ w',
      free_loop fuel inner w (head_loc t None) = Some w' ∧
      holds w' [] ∧
      (∀ a, a ∈ t.*1 → mem w' !! a = None) ∧
      (∀ b, b ∉ t.*1 → mem w' !! b = mem w !! b) ∧
      ∃ n, trace w' = trace w ++ repeat Access n.
Proof.
  induction t as [|[a o] t IH]; intros fuel inner w Hl Hfuel Hinner;
    destruct fuel as [|fuel]; simpl in Hfuel; try lia.
  - exists w. split; [done|]. split; [done|]. split.
    { intros a Ha. by apply elem_of_nil in Ha. }
    split; [done|]. exists O. by rewrite app_nil_r.
  - pose proof (seg_lookup (mem w) None _ [] t a o (proj1 Hl)) as Ha.
    cbn [free_loop head_loc]. rewrite Ha. cbn [mbind option_bind osc next].
    destruct (oscil_list_remove_first inner (mem w) (osc_list (player w))
                [] t a o Hl Hinner) as (h' & head' & Hrun & Hl' & Hgone & Hfr);
      [done|].
    change (mem (log Access w)) with (mem w).
    change (osc_list (player (log Access w))) with (osc_list (player w)).
    rewrite Hrun. cbn [mbind option_bind].
    simpl in Hl'. pose proof (seg_head _ _ _ _ _ (proj1 Hl')) as Hhead.
    destruct (IH fuel inner (set_list h' head' (log Access w)))
      as (w' & Hloop & Hnil & Hfreed & Hfr' & n & Htr); [done|lia|simpl in *; lia|].
    exists w'. split; [exact Hloop|]. split; [done|]. split; [|split].
    + intros b Hb. apply elem_of_cons in Hb as [->|Hb]; [|by apply Hfreed].
      destruct Hl as [_ Hnd]. apply NoDup_cons in Hnd as [Hnotin _].
      by rewrite Hfr'.
    + intros b Hb. rewrite Hfr'; [by apply Hfr|].
      by apply not_elem_of_cons in Hb as [_ Hb].
    + exists (S (S n)). rewrite Htr. simpl. by rewrite <- !app_assoc.
Qed.

(** X17.  [free_audio_player] frees every node of the list, whatever the ids
    are, and leaves the player without oscillators; it takes no lock. *)
Theorem free_audio_player_frees (fuel : nat) (w : world)
    (l : Datatypes.list (loc * Oscillator)) :
  holds w l → (length l < fuel)%nat →
  ∃ w',
    free_audio_player fuel w = Some w' ∧
    osc_list (player w') = None ∧
    (∀ a, a ∈ l.*1 → mem w' !! a = None) ∧
    (∀ b, b ∉ l.*1 → mem w' !! b = mem w !! b) ∧
    ∃ n, trace w' = trace w ++ repeat Access (S n).
Proof.
  intros Hl Hfuel. unfold free_audio_player.
  destruct (free_loop_spec l fuel fuel (log Access w))
    as (w' & Hrun & [Hnil _] & Hfreed & Hfr & n & Htr); [done..|].
  rewrite (seg_head _ _ _ _ _ (proj1 Hl)).
  exists w'. split; [done|]. split; [done|]. split; [done|]. split; [done|].
  exists n. rewrite Htr. simpl. by rewrite <- app_assoc.
Qed.

(** *** Silence and the reap *)

Lemma Qred_idem (x : Q) : Qred (Qred x) = Qred x.
Proof. apply Qred_complete, Qred_correct. Qed.

Lemma sample_add_reduced (v a : sample) : reduced (sample_add v a).
Proof. destruct v, a; simpl; try done. apply Qred_idem. Qed.

Lemma sample_add_zero (v : sample) : reduced v → sample_add v (Amp 0) = v.
Proof.
  destruct v as [x|]; simpl; [|done]. intros Hx. f_equal.
  unfold fadd. rewrite <- Hx at 2. apply Qred_complete. ring.
Qed.

Lemma foldl_skip_silent {A : Type} (f : A → sample) (keep : A → bool)
    (l : Datatypes.list A) :
  (∀ x, x ∈ l → keep x = false → f x = Amp 0) →
  ∀ v, reduced v →
    foldl sample_add v (f <$> filter keep l) = foldl sample_add v (f <$> l).
Proof.
  induction l as [|x l IH]; intros Hsil v Hv; [done|].
  destruct (keep x) eqn:Hk.
  - rewrite filter_cons_True by (by apply Is_true_true). simpl.
    apply IH; [|apply sample_add_reduced].
    intros y Hy. apply Hsil. by apply list_elem_of_further.
  - rewrite filter_cons_False by (by apply Is_true_false). simpl.
    rewrite (Hsil x); [|apply list_elem_of_here|done].
    rewrite sample_add_zero by done.
    apply IH; [|done]. intros y Hy. apply Hsil. by apply list_elem_of_further.
Qed.

(** X18.  With every oscillator waiting or expired at each of its ticks (with
    no oscillator at all, for one), the callback returns exact zeros. *)
Theorem audio_player_callback_silence (fuel frames : nat) (w : world)
    (l : Datatypes.list (loc * Oscillator)) :
  holds w l → (length l < fuel)%nat →
  (∀ x i, x ∈ l → (i < frames)%nat → out_of_range (ticked i x.2) = true) →
  ∃ w', audio_player_callback fuel w frames = Some (w', replicate frames (Amp 0)).
Proof.
  intros Hl Hfuel Hout.
  destruct (audio_player_callback_run fuel frames w l Hl Hfuel) as (w' & Hrun & _).
  exists w'. rewrite Hrun. do 2 f_equal.
  apply list_eq. intros i. rewrite list_lookup_fmap.
  destruct (decide (i < frames)%nat) as [Hi|Hi].
  - rewrite lookup_seq_lt, lookup_replicate_2 by done. simpl. f_equal.
    unfold mix.
    assert (∀ l', (∀ x, x ∈ l' → x ∈ l) →
              foldl sample_add (Amp 0)
                ((λ x : loc * Oscillator, (oscil_tick (ticked i x.2)).2) <$> l')
              = Amp 0) as Hall; [|by apply Hall].
    intros l'. induction l' as [|x l' IH] using rev_ind; intros Hsub; [done|].
    rewrite fmap_app, foldl_app, IH.
    + simpl. rewrite oscil_tick_out_of_range; [done|].
      apply Hout; [|done]. apply Hsub, elem_of_app. right. apply list_elem_of_here.
    + intros y Hy. apply Hsub, elem_of_app. by left.
  - rewrite lookup_seq_ge, (proj1 (lookup_replicate_None _ _ _)) by lia. done.
Qed.

Lemma synch_update_run (fuel : nat) (w : world)
    (l : Datatypes.list (loc * Oscillator)) :
  holds w l → NoDup (ids l) → (length l < fuel)%nat →
  ∃ w', synch_update fuel w = Some w' ∧ holds w' (filter live l).
Proof.
  intros Hl Hids Hfuel. unfold synch_update.
  destruct (synch_loop_spec l [] fuel fuel (log Access w))
    as (w' & Hrun & Hl' & _); [done..|].
  rewrite (seg_head _ _ _ _ _ (proj1 Hl)). by exists w'.
Qed.

Lemma mix_filter_live (l : Datatypes.list (loc * Oscillator)) (i : nat) :
  (∀ x, x ∈ l → oscil_expired x.2 = true →
        in_int (curr_sample x.2) ∧ curr_sample x.2 + Z.of_nat i <= INT_MAX) →
  mix (filter live l) i = mix l i.
Proof.
  intros Hsafe. unfold mix.
  apply (foldl_skip_silent (λ x, (oscil_tick (ticked i x.2)).2) live); [|done].
  intros x Hx Hdead. unfold live in Hdead. apply negb_false_iff in Hdead.
  destruct (Hsafe x Hx Hdead) as [Hint Hmax].
  by destruct (expired_tick_silent x.2 i Hdead Hint Hmax) as [_ ?].
Qed.

(** X19.  A reap does not change what is heard: the callback returns the same
    samples after [synch_update] as without it. *)
Theorem synch_update_keeps_audio (fuel frames : nat) (w : world)
    (l : Datatypes.list (loc * Oscillator)) :
  holds w l → NoDup (ids l) → (length l < fuel)%nat →
  (∀ x, x ∈ l → oscil_expired x.2 = true →
        in_int (curr_sample x.2) ∧
        curr_sample x.2 + Z.of_nat frames <= INT_MAX) →
  ∃ w0 out w1 w2,
    audio_player_callback fuel w frames = Some (w0, out) ∧
    synch_update fuel w = Some w1 ∧
    audio_player_callback fuel w1 frames = Some (w2, out).
Proof.
  intros Hl Hids Hfuel Hsafe.
  destruct (audio_player_callback_run fuel frames w l Hl Hfuel) as (w0 & Hr0 & _).
  destruct (synch_update_run fuel w l Hl Hids Hfuel) as (w1 & Hr1 & Hl1).
  destruct (audio_player_callback_run fuel frames w1 _ Hl1) as (w2 & Hr2 & _).
  { pose proof (length_filter live l). lia. }
  exists w0, (mix l <$> seq 0 frames), w1, w2.
  split; [done|]. split; [done|]. rewrite Hr2. do 2 f_equal.
  apply list_fmap_ext. intros k i Hi. apply lookup_seq in Hi as [-> Hk].
  apply mix_filter_live. intros x Hx Hexp.
  destruct (Hsafe x Hx Hexp). split; [done|lia].
Qed.

(** With nothing expired behind the cursor the loop of [synch_update]
    stores nothing. *)
Lemma synch_loop_idle (t : Datatypes.list (loc * Oscillator)) :
  ∀ (fuel inner : nat) (w : world) (pv p : option loc),
    seg (mem w) pv p t None → Forall (λ x, live x = true) t →
    (length t < fuel)%nat →
    ∃ w', synch_loop fuel inner w p = Some w' ∧
          mem w' = mem w ∧ player w' = player w.
Proof.
  induction t as [|[a o] t IH]; intros fuel inner w pv p Hseg Hlive Hfuel;
    destruct fuel as [|fuel]; simpl in Hfuel; try lia.
  - simpl in Hseg. subst p. by exists w.
  - destruct Hseg as (-> & nx & Ha & Ht).
    apply Forall_cons in Hlive as [Ho Hlive].
    unfold live in Ho. simpl in Ho. apply negb_true_iff in Ho.
    cbn [synch_loop]. rewrite Ha. cbn [mbind option_bind osc next]. rewrite Ho.
    destruct (IH fuel inner (log Access w) (Some a) nx) as (w' & Hrun & Hm & Hp);
      [done..|lia|].
    by exists w'.
Qed.

(** X20.  A reap of a list without expired oscillators changes neither the heap
    nor the player, and so does a reap that follows a reap. *)
Theorem synch_update_idle (fuel : nat) (w : world)
    (l : Datatypes.list (loc * Oscillator)) :
  holds w l → NoDup (ids l) → (length l < fuel)%nat →
  (Forall (λ x, oscil_expired x.2 = false) l →
     ∃ w1, synch_update fuel w = Some w1 ∧
           mem w1 = mem w ∧ player w1 = player w) ∧
  (∃ w1 w2, synch_update fuel w = Some w1 ∧ synch_update fuel w1 = Some w2 ∧
            mem w2 = mem w1 ∧ player w2 = player w1).
Proof.
  intros Hl Hids Hfuel.
  assert (∀ (v : world) (k : Datatypes.list (loc * Oscillator)),
            holds v k → (length k < fuel)%nat → Forall (λ x, live x = true) k →
            ∃ v', synch_update fuel v = Some v' ∧
                  mem v' = mem v ∧ player v' = player v) as Hidle.
  { intros v k [Hseg _] Hlen Hlive. unfold synch_update.
    by apply (synch_loop_idle k fuel fuel (log Access v) None). }
  split.
  - intros Hnone. apply (Hidle w l); [done..|].
    eapply Forall_impl; [exact Hnone|]. intros x Hx. unfold live. by rewrite Hx.
  - destruct (synch_update_run fuel w l Hl Hids Hfuel) as (w1 & Hr1 & Hl1).
    destruct (Hidle w1 (filter live l) Hl1) as (w2 & Hr2 & Hm & Hp).
    { pose proof (length_filter live l). lia. }
    { apply Forall_forall. intros x Hx.
      apply list_elem_of_filter in Hx as [Hx _]. by apply Is_true_true. }
    by exists w1, w2.
Qed.

(** ** The end of a voice *)

Lemma get_percentval_past_end (sscanf_ff : string → option (Q * Q))
    (uninit : Q) (file : string) (bp : Breakpoints) (perc : Q) :
  load_bp_file sscanf_ff uninit file = Loaded bp → list bp ≠ [] →
  (1 <= perc)%Q →
  returned (get_percentval bp perc) = Garbage.
Proof.
  intros Hload Hne Hperc.
  destruct (load_bp_file_loaded _ _ _ _ Hload) as (Hasc & Hmax & Hzero).
  destruct (last (list bp)) as [b|] eqn:Hlast; [|by apply last_None in Hlast].
  pose proof (ascending_below_last (list bp) b Hasc Hlast) as Hall.
  assert (0 <= time b)%Q as Hpos.
  { destruct (list bp) as [|x l]; [done|].
    apply Forall_inv in Hall. by rewrite <- (Hzero x). }
  assert (time b <= fmul (maxtime bp) perc)%Q as Hle.
  { rewrite fmul_eq, <- (Hmax b eq_refl). nra. }
  unfold get_percentval.
  destruct (get_timeval_no_later_breakpoint bp (fmul (maxtime bp) perc))
    as (_ & _ & ->); [| | |done].
  - unfold len. destruct (list bp); [done|]. simpl. lia.
  - lra.
  - eapply Forall_impl; [exact Hall|]. intros x Hx. simpl in Hx. lra.
Qed.

(** X21.  The last ticks of a voice.  Under an envelope that was loaded from a
    file and is not empty, an active tick that takes the counter to
    [slength] or beyond asks the envelope for 100 percent or more, and the
    amplitude it returns comes from beyond the envelope's list. *)
Theorem oscil_tick_end_of_voice (sscanf_ff : string → option (Q * Q))
    (uninit : Q) (file : string) (o : Oscillator) :
  load_bp_file sscanf_ff uninit file = Loaded (vol_bp o) →
  list (vol_bp o) ≠ [] →
  0 <= curr_sample o < INT_MAX → (0 < slength o)%Q →
  (slength o - 1 <= inject_Z (curr_sample o))%Q →
  (inject_Z (curr_sample o) <= slength o)%Q →
  out_of_range o = false ∧ (oscil_tick o).2 = Garbage.
Proof.
  intros Hload Hne Hcs Hlen Hlo Hhi.
  assert (out_of_range o = false) as Hact.
  { apply not_true_iff_false. rewrite out_of_range_iff.
    unfold float_of_int. intros [?|?]; [lia|lra]. }
  split; [done|]. rewrite oscil_tick_active by done. cbn [snd].
  rewrite wrap32_in_range by (unfold in_int, INT_MIN, INT_MAX in *; lia).
  rewrite (get_percentval_past_end sscanf_ff uninit file); [|done..|].
  - by destruct (sample_mul (Amp (amplitude o)) (tab_at o (index o))).
  - unfold fdiv, float_of_int. rewrite Qred_correct, inject_Z_plus.
    apply Qle_shift_div_l; [done|]. change (inject_Z 1) with 1%Q. lra.
Qed.

(** ** The numbers of a note *)

Import main.

Lemma Qtrunc_small (q : Q) (n : Z) :
  (0 <= q)%Q → (q <= inject_Z n)%Q → n <= INT_MAX →
  0 <= int_of_float q <= n ∧
  (inject_Z (int_of_float q) <= q < inject_Z (int_of_float q) + 1)%Q.
Proof.
  intros Hq Hn Hmax. destruct (Qtrunc_nonneg q Hq) as [Hlo Hhi].
  assert (0 <= Qtrunc q <= n) as Hr.
  { split.
    - assert (inject_Z (-1) < inject_Z (Qtrunc q))%Q as Hlt.
      { change (inject_Z (-1)) with (-1)%Q. lra. }
      rewrite <- Zlt_Qlt in Hlt. lia.
    - rewrite Zle_Qle. lra. }
  unfold int_of_float. rewrite wrap32_in_range; [done|].
  unfold in_int, INT_MIN, INT_MAX in *. lia.
Qed.

Lemma randint_forward (r beg end_ : Z) :
  0 <= r <= INT_MAX → in_int beg → in_int end_ → in_int (end_ - beg) →
  beg < end_ → ∃ v, randint r beg end_ = Some v ∧ beg <= v < end_.
Proof.
  intros Hr Hb He Hd Hlt. unfold randint. rewrite (wrap32_in_range _ Hd).
  destruct (Z.eqb_spec (end_ - beg) 0); [lia|].
  pose proof (Z.rem_bound_pos r (end_ - beg) ltac:(lia) ltac:(lia)).
  eexists. split; [done|]. rewrite wrap32_in_range; [lia|].
  unfold in_int, INT_MIN, INT_MAX in *. lia.
Qed.

Lemma randint_backward (r beg end_ : Z) :
  0 <= r <= INT_MAX → in_int beg → in_int end_ → in_int (end_ - beg) →
  end_ < beg → in_int (2 * beg - end_) →
  ∃ v, randint r beg end_ = Some v ∧ beg <= v < 2 * beg - end_.
Proof.
  intros Hr Hb He Hd Hlt Hint. unfold randint. rewrite (wrap32_in_range _ Hd).
  destruct (Z.eqb_spec (end_ - beg) 0); [lia|].
  pose proof (Z.rem_bound_pos r (beg - end_) ltac:(lia) ltac:(lia)) as Hrem.
  replace (end_ - beg) with (- (beg - end_)) by lia.
  rewrite Z.rem_opp_r by lia.
  eexists. split; [done|]. rewrite wrap32_in_range; [lia|].
  unfold in_int, INT_MIN, INT_MAX in *. lia.
Qed.

(** X22.  [randint(beg, end)] with [beg < end] lies from [beg] up to, not
    including, [end]; with [beg = end] it divides by zero; with
    [end < beg] it lies from [beg] upwards, outside the range. *)
Theorem randint_range (r beg end_ : Z) :
  0 <= r <= INT_MAX → in_int beg → in_int end_ → in_int (end_ - beg) →
  (beg < end_ → ∃ v, randint r beg end_ = Some v ∧ beg <= v < end_) ∧
  (beg = end_ → randint r beg end_ = None) ∧
  (end_ < beg → in_int (2 * beg - end_) →
     ∃ v, randint r beg end_ = Some v ∧ beg <= v < 2 * beg - end_).
Proof.
  intros Hr Hb He Hd. split; [|split].
  - by apply randint_forward.
  - intros ->. unfold randint. by rewrite Z.sub_diag.
  - by apply randint_backward.
Qed.

(** X23.  [randfloat(beg, end)] lies from [beg] to [end], both ends included:
    it is [beg] when [rand()] returns 0 and [end] when it returns
    [RAND_MAX]. *)
Theorem randfloat_range (RAND_MAX r : Z) (beg end_ : Q) :
  0 < RAND_MAX → 0 <= r <= RAND_MAX → (beg <= end_)%Q →
  (beg <= randfloat RAND_MAX r beg end_ <= end_)%Q ∧
  (r = 0 → (randfloat RAND_MAX r beg end_ == beg)%Q) ∧
  (r = RAND_MAX → (randfloat RAND_MAX r beg end_ == end_)%Q).
Proof.
  intros Hmax Hr Hbe. unfold randfloat, fadd, fmul, fdiv, fsub, float_of_int.
  rewrite !Qred_correct.
  assert (0 < inject_Z RAND_MAX)%Q as HM by (by apply inject_Z_pos).
  set (u := (inject_Z r / inject_Z RAND_MAX)%Q).
  assert (0 <= u <= 1)%Q as [Hu0 Hu1].
  { unfold u. split.
    - apply Qle_shift_div_l; [done|]. rewrite Qmult_0_l. apply inject_Z_nonneg. lia.
    - apply Qle_shift_div_r; [done|]. rewrite Qmult_1_l, <- Zle_Qle. lia. }
  split; [split; nra|]. split.
  - intros ->. unfold u, Qdiv. change (inject_Z 0) with 0%Q. ring.
  - intros ->. unfold u. field. lra.
Qed.

(** X24.  The index at which the frequency of a note is read lies from 0 to
    [key->len], and it is [key->len], one past the frequencies, exactly
    when the brightness drawn is 1 or more. *)
Theorem freq_index_range (brightness : Q) (key_len : Z) :
  (0 <= brightness)%Q → 0 < key_len <= INT_MAX →
  0 <= freq_index (clamp_brightness brightness) key_len <= key_len ∧
  (freq_index (clamp_brightness brightness) key_len = key_len ↔
   (1 <= brightness)%Q).
Proof.
  intros Hb Hlen. unfold freq_index, percent_in_range.
  set (b := clamp_brightness brightness).
  assert ((0 <= b <= 1)%Q ∧ ((b == 1)%Q ↔ (1 <= brightness)%Q)) as ([Hb0 Hb1] & Hone).
  { unfold b, clamp_brightness. destruct (fgtb brightness 1) eqn:Hgt.
    - apply fgtb_gt in Hgt. split; [lra|]. split; [lra|reflexivity].
    - apply fgtb_le in Hgt. split; [lra|]. split; lra. }
  set (q := fadd (fmul b (fsub (float_of_int key_len) 0)) 0).
  assert (q == b * inject_Z key_len)%Q as Hq.
  { unfold q, fadd, fmul, fsub, float_of_int. rewrite !Qred_correct. ring. }
  assert (0 < inject_Z key_len)%Q as Hk by (apply inject_Z_pos; lia).
  destruct (Qtrunc_small q key_len) as [Hr [Hlo Hhi]]; [nra|nra|lia|].
  split; [done|]. rewrite <- Hone. split.
  - intros Heq. rewrite Heq in Hlo. nra.
  - intros Heq.
    assert (inject_Z (key_len - 1) < inject_Z (int_of_float q))%Q as Hlt.
    { assert (q == inject_Z key_len)%Q as Hqk by (rewrite Hq, Heq; ring).
      unfold Zminus. rewrite inject_Z_plus. change (inject_Z (- (1))) with (-1)%Q. lra. }
    rewrite <- Zlt_Qlt in Hlt. lia.
Qed.

(** X25.  The amplitude of a note lies from 0.12 to 0.4 and falls as the
    brightness rises. *)
Theorem note_amplitude_range (b b' : Q) :
  (0 <= b)%Q → (b <= b')%Q → (b' <= 1)%Q →
  (12 # 100 <= note_amplitude b' <= note_amplitude b)%Q ∧
  (note_amplitude b <= 4 # 10)%Q.
Proof.
  intros H0 Hbb H1. unfold note_amplitude, fmul, fadd, fsub.
  rewrite !Qred_correct. split; [split|]; lra.
Qed.

Lemma table_index_cases (drawn : Z) :
  0 <= table_index drawn <= NUM_TABS ∧
  (table_index drawn = NUM_TABS ↔ 130 <= drawn).
Proof.
  unfold table_index, NUM_TABS.
  set (c := if fgtb (if fltb (fsub (float_of_int drawn) 30) (-100) then (-100)%Q
                     else fsub (float_of_int drawn) 30) 100
            then 100%Q
            else if fltb (fsub (float_of_int drawn) 30) (-100) then (-100)%Q
                 else fsub (float_of_int drawn) 30).
  assert (fsub (float_of_int drawn) 30 == inject_Z drawn - 30)%Q as Hs.
  { unfold fsub. apply Qred_correct. }
  assert ((-100 <= c <= 100)%Q ∧ ((100 <= c)%Q ↔ 130 <= drawn)) as ([Hc0 Hc1] & Hc).
  { unfold c. destruct (fltb (fsub (float_of_int drawn) 30) (-100)) eqn:Hlo.
    - apply fltb_lt in Hlo. rewrite Hs in Hlo.
      assert (fgtb (-100) 100 = false) as -> by done.
      split; [lra|]. split; [lra|]. intros Hd.
      assert (inject_Z 130 <= inject_Z drawn)%Q by (by rewrite <- Zle_Qle).
      change (inject_Z 130) with 130%Q in *. lra.
    - apply fltb_ge in Hlo. rewrite Hs in Hlo.
      destruct (fgtb (fsub (float_of_int drawn) 30) 100) eqn:Hhi.
      + apply fgtb_gt in Hhi. rewrite Hs in Hhi. split; [lra|]. split; [|lra].
        intros _. assert (inject_Z 130 < inject_Z drawn)%Q as Hlt.
        { change (inject_Z 130) with 130%Q. lra. }
        rewrite <- Zlt_Qlt in Hlt. lia.
      + apply fgtb_le in Hhi. rewrite Hs in Hhi |- *. split; [lra|]. split.
        * intros Hle. assert (inject_Z 130 <= inject_Z drawn)%Q as Hd.
          { change (inject_Z 130) with 130%Q. lra. }
          by rewrite <- Zle_Qle in Hd.
        * intros Hd.
          assert (inject_Z 130 <= inject_Z drawn)%Q by (by rewrite <- Zle_Qle).
          change (inject_Z 130) with 130%Q in *. lra. }
  set (q := fmul (float_of_int 8) (fdiv (fadd c 100) 200)).
  assert (q == 8 * ((c + 100) / 200))%Q as Hq.
  { unfold q, fmul, fdiv, fadd, float_of_int. rewrite !Qred_correct.
    change (inject_Z 8) with 8%Q. reflexivity. }
  assert (q == (c + 100) * (4 # 100))%Q as Hq' by (rewrite Hq; field).
  destruct (Qtrunc_small q 8) as [Hr [Hlo Hhi]].
  { lra. } { change (inject_Z 8) with 8%Q. lra. } { done. }
  split; [done|]. rewrite <- Hc. split.
  - intros Heq. rewrite Heq in Hlo. change (inject_Z 8) with 8%Q in Hlo. lra.
  - intros Hle.
    assert (inject_Z 7 < inject_Z (int_of_float q))%Q as Hlt.
    { change (inject_Z 7) with 7%Q. lra. }
    rewrite <- Zlt_Qlt in Hlt. lia.
Qed.

(** X26.  The index of the lookup table of a note lies from 0 to [NUM_TABS]; it
    is [NUM_TABS], one past the eight tables, exactly when the warmth
    drawn is 130 or more. *)
Theorem table_index_range (drawn : Z) :
  0 <= table_index drawn <= NUM_TABS ∧
  (table_index drawn = NUM_TABS ↔ 130 <= drawn).
Proof. apply table_index_cases. Qed.

(** ** The warmth of an image region *)

Lemma Qtrunc_between (q : Q) (lo hi : Z) :
  (inject_Z lo <= q)%Q → (q <= inject_Z hi)%Q → lo <= Qtrunc q <= hi.
Proof.
  unfold Qle, Qtrunc. simpl. rewrite !Z.mul_1_r. intros Hlo Hhi.
  destruct (Z.le_gt_cases 0 (Qnum q)) as [Hn|Hn].
  - rewrite Z.quot_div_nonneg by lia. split.
    + apply Z.div_le_lower_bound; lia.
    + apply Z.div_le_upper_bound; lia.
  - replace (Qnum q) with (- - Qnum q) by lia.
    rewrite Z.quot_opp_l by lia. rewrite Z.quot_div_nonneg by lia.
    assert (- hi <= (- Qnum q) `div` Z.pos (Qden q) <= - lo); [|lia].
    split.
    + apply Z.div_le_lower_bound; lia.
    + apply Z.div_le_upper_bound; lia.
Qed.

Lemma length_bind_fmap {A B C : Type} (f : A → B → C)
    (l : Datatypes.list A) (k : Datatypes.list B) :
  length (i ← l; f i <$> k) = (length l * length k)%nat.
Proof.
  induction l as [|x l IH]; [done|].
  rewrite bind_cons, length_app, length_fmap, IH. simpl. lia.
Qed.

Lemma region_length (x y w h : Z) :
  in_int (x + w) → in_int (y + h) → 0 <= w → 0 <= h →
  Z.of_nat (length (image.region x y w h)) = w * h.
Proof.
  intros Hx Hy Hw Hh. unfold image.region.
  rewrite length_bind_fmap, !length_seqZ, !wrap32_in_range by done.
  rewrite Nat2Z.inj_mul, !Z2Nat.id by lia.
  f_equal; lia.
Qed.

Lemma region_elem (x y w h i j : Z) :
  in_int (x + w) → in_int (y + h) →
  (i, j) ∈ image.region x y w h → x <= i < x + w ∧ y <= j < y + h.
Proof.
  intros Hx Hy. unfold image.region.
  rewrite !wrap32_in_range by done.
  intros (i' & Hj & Hi)%list_elem_of_bind.
  apply list_elem_of_fmap_1 in Hj as (j' & [= -> ->] & Hj).
  apply elem_of_seqZ in Hi. apply elem_of_seqZ in Hj. lia.
Qed.

Lemma fold_warmth (image : image.Image) (lo hi : Z)
    (coords : Datatypes.list (Z * Z)) :
  -255 <= lo → hi <= 255 →
  Forall (λ ij, ∃ p, image.get_pixel image ij.1 ij.2 = Some p ∧
                     lo <= image.r p - image.b p <= hi) coords →
  ∀ (n s : Z),
    0 <= n → n * lo <= s <= n * hi →
    255 * (n + Z.of_nat (length coords)) <= INT_MAX →
    ∃ s', foldl (image.add_warmth image) (Some s) coords = Some s' ∧
          (n + Z.of_nat (length coords)) * lo <= s' <=
          (n + Z.of_nat (length coords)) * hi.
Proof.
  intros Hlo Hhi Hall. induction Hall as [|[i j] coords (p & Hp & Hd) _ IH];
    intros n s Hn Hs Hmax.
  - exists s. split; [done|]. simpl. by rewrite Z.add_0_r.
  - simpl in Hp. cbn [foldl length] in *.
    assert (image.add_warmth image (Some s) (i, j) =
            Some (wrap32 (s + wrap32 (image.r p - image.b p)))) as ->.
    { unfold image.add_warmth. simpl. by rewrite Hp. }
    assert (wrap32 (image.r p - image.b p) = image.r p - image.b p) as ->.
    { apply wrap32_in_range. unfold in_int, INT_MIN, INT_MAX. lia. }
    assert (-255 * n <= s <= 255 * n) as Hsn by nia.
    rewrite wrap32_in_range
      by (unfold in_int, INT_MIN, INT_MAX in *; lia).
    destruct (IH (n + 1) (s + (image.r p - image.b p))) as (s' & Hrun & Hs');
      [lia|nia|lia|].
    exists s'. split; [done|].
    replace (n + Z.of_nat (S (length coords)))
      with (n + 1 + Z.of_nat (length coords)) by lia.
    done.
Qed.

Lemma get_pixel_in_bounds (image : image.Image) (i j : Z) :
  length (image.pixels image) =
    Z.to_nat (image.width image * image.height image) →
  image.width image * image.height image <= INT_MAX →
  0 <= i < image.width image → 0 <= j < image.height image →
  is_Some (image.get_pixel image i j).
Proof.
  intros Hlen Hmax Hi Hj. unfold image.get_pixel.
  assert (0 <= j * image.width image + i < image.width image * image.height image)
    as Hidx by nia.
  rewrite wrap32_in_range by (unfold in_int, INT_MIN, INT_MAX in *; nia).
  destruct (Z.ltb_spec (j * image.width image + i) 0); [lia|].
  apply lookup_lt_is_Some. rewrite Hlen. lia.
Qed.

Lemma avg_warmth_bounds (image : image.Image) (x y w h lo hi : Z) :
  0 <= x → 0 <= y → 0 < w → 0 < h →
  x + w <= image.width image → y + h <= image.height image →
  255 * (image.width image * image.height image) <= INT_MAX →
  length (image.pixels image) =
    Z.to_nat (image.width image * image.height image) →
  -255 <= lo → hi <= 255 →
  (∀ i j p, x <= i < x + w → y <= j < y + h →
            image.get_pixel image i j = Some p →
            lo <= image.r p - image.b p <= hi) →
  ∃ v, image.avg_warmth image x y w h = Some v ∧ lo <= v <= hi.
Proof.
  intros Hx Hy Hw Hh Hxw Hyh Hmax Hlen Hlo Hhi Hpix.
  assert (w * h <= image.width image * image.height image) as Harea by nia.
  assert (0 < w * h) as Hpos by nia.
  assert (in_int (x + w) ∧ in_int (y + h) ∧ in_int (w * h)) as (Hix & Hiy & Hiwh).
  { unfold in_int, INT_MIN, INT_MAX in *. nia. }
  destruct (fold_warmth image lo hi (image.region x y w h) Hlo Hhi) with (n := 0) (s := 0)
    as (s & Hrun & Hs).
  - apply Forall_forall. intros [i j] Hij.
    apply region_elem in Hij as [Hi Hj]; [|done..].
    destruct (get_pixel_in_bounds image i j) as [p Hp]; [done|lia|lia|lia|].
    exists p. split; [done|]. by apply (Hpix i j).
  - done.
  - lia.
  - rewrite region_length by (done || lia). lia.
  - rewrite region_length in Hs by (done || lia). rewrite Z.add_0_l in Hs.
    unfold image.avg_warmth. rewrite Hrun. simpl.
    rewrite (wrap32_in_range (w * h)) by done.
    destruct (Z.eqb_spec (w * h) 0); [lia|].
    eexists. split; [done|].
    assert (0 < inject_Z (w * h))%Q as HQ by (by apply inject_Z_pos).
    assert (lo <= Qtrunc (fdiv (float_of_int s) (float_of_int (w * h))) <= hi) as Hv.
    { apply Qtrunc_between; unfold fdiv, float_of_int; rewrite Qred_correct.
      - apply Qle_shift_div_l; [done|].
        rewrite <- inject_Z_mult, <- Zle_Qle. lia.
      - apply Qle_shift_div_r; [done|].
        rewrite <- inject_Z_mult, <- Zle_Qle. lia. }
    unfold int_of_float. rewrite wrap32_in_range; [done|].
    unfold in_int, INT_MIN, INT_MAX. lia.
Qed.



(** *** The region of a round *)

Lemma wrap32_mod (z : Z) : wrap32 (z mod 4294967296) = wrap32 z.
Proof.
  unfold wrap32. f_equal.
  rewrite <- (Z.add_mod_idemp_l z) by lia. done.
Qed.

Lemma draw_start (r n : Z) :
  0 <= r <= INT_MAX → 0 <= n <= INT_MAX →
  (50 < n → ∃ v, randint r 0 (wrap32 ((n - 50) mod 4294967296)) = Some v ∧
                 0 <= v ∧ v + 50 < n) ∧
  (n = 50 → randint r 0 (wrap32 ((n - 50) mod 4294967296)) = None) ∧
  (n < 50 → ∃ v, randint r 0 (wrap32 ((n - 50) mod 4294967296)) = Some v ∧
                 0 <= v ∧ n < v + 50).
Proof.
  intros Hr Hn. rewrite wrap32_mod.
  rewrite (wrap32_in_range (n - 50))
    by (unfold in_int, INT_MIN, INT_MAX in *; lia).
  split; [|split].
  - intros Hbig.
    destruct (randint_forward r 0 (n - 50)) as (v & Hv & Hrange);
      [done|unfold in_int, INT_MIN, INT_MAX in *; lia..|lia|].
    exists v. split; [done|]. lia.
  - intros ->. done.
  - intros Hsmall.
    destruct (randint_backward r 0 (n - 50)) as (v & Hv & Hrange);
      [done|unfold in_int, INT_MIN, INT_MAX in *; lia..|].
    exists v. split; [done|]. lia.
Qed.

(** X29.  The region of a round lies inside a picture that is more than
    [RECT_WIDTH] wide and [RECT_HEIGHT] high, and never holds its last
    column or row; a picture exactly that wide or high makes the choice
    divide by zero; in a narrower picture the region chosen reaches past
    the right edge. *)
Theorem pick_region_inside (imagew imageh rx ry : Z) :
  0 <= rx <= INT_MAX → 0 <= ry <= INT_MAX →
  0 <= imagew <= INT_MAX → 0 <= imageh <= INT_MAX →
  (RECT_WIDTH < imagew → RECT_HEIGHT < imageh →
     ∃ sx sy, pick_region imagew imageh rx ry = Some (sx, sy) ∧
              0 <= sx ∧ sx + RECT_WIDTH < imagew ∧
              0 <= sy ∧ sy + RECT_HEIGHT < imageh) ∧
  (imagew = RECT_WIDTH ∨ imageh = RECT_HEIGHT →
     pick_region imagew imageh rx ry = None) ∧
  (imagew < RECT_WIDTH → imageh ≠ RECT_HEIGHT →
     ∃ sx sy, pick_region imagew imageh rx ry = Some (sx, sy) ∧
              0 <= sx ∧ imagew < sx + RECT_WIDTH).
Proof.
  intros Hrx Hry Hw Hh. unfold pick_region, RECT_WIDTH, RECT_HEIGHT.
  destruct (draw_start rx imagew Hrx Hw) as (Hx1 & Hx2 & Hx3).
  destruct (draw_start ry imageh Hry Hh) as (Hy1 & Hy2 & Hy3).
  split; [|split].
  - intros Hbw Hbh.
    destruct (Hx1 Hbw) as (sx & -> & Hsx). destruct (Hy1 Hbh) as (sy & -> & Hsy).
    exists sx, sy. simpl. split; [done|]. lia.
  - intros [->| ->].
    + by rewrite Hx2.
    + rewrite Hy2 by done. by destruct (randint rx 0 _).
  - intros Hsmall Hne. destruct (Hx3 Hsmall) as (sx & -> & Hsx).
    destruct (Z.lt_trichotomy imageh 50) as [Hlt|[Heq|Hgt]]; [|done|].
    + destruct (Hy3 Hlt) as (sy & -> & _). exists sx, sy. simpl. split; [done|]. lia.
    + destruct (Hy1 Hgt) as (sy & -> & _). exists sx, sy. simpl. split; [done|]. lia.
Qed.

(** X30.  On a picture of byte pixels that is more than [RECT_WIDTH] wide and
    [RECT_HEIGHT] high, the average warmth of the region of a round is
    defined and lies from -255 to 255, whatever [rand()] returns. *)
Theorem region_warmth_range (image : image.Image) (rx ry : Z) :
  0 <= rx <= INT_MAX → 0 <= ry <= INT_MAX →
  RECT_WIDTH < image.width image → RECT_HEIGHT < image.height image →
  255 * (image.width image * image.height image) <= INT_MAX →
  length (image.pixels image) =
    Z.to_nat (image.width image * image.height image) →
  Forall (λ p, 0 <= image.r p <= 255 ∧ 0 <= image.b p <= 255)
         (image.pixels image) →
  ∃ sx sy v,
    pick_region (image.width image) (image.height image) rx ry = Some (sx, sy) ∧
    image.avg_warmth image sx sy RECT_WIDTH RECT_HEIGHT = Some v ∧
    -255 <= v <= 255.
Proof.
  intros Hrx Hry Hw Hh Hmax Hlen Hbytes. unfold RECT_WIDTH, RECT_HEIGHT in *.
  assert (image.width image <= INT_MAX ∧ image.height image <= INT_MAX) as [? ?].
  { unfold INT_MAX in *. nia. }
  destruct (draw_start rx (image.width image)) as (Hx & _); [done|lia|].
  destruct (draw_start ry (image.height image)) as (Hy & _); [done|lia|].
  destruct (Hx Hw) as (sx & Hpx & Hsx). destruct (Hy Hh) as (sy & Hpy & Hsy).
  assert (pick_region (image.width image) (image.height image) rx ry =
          Some (sx, sy)) as Hpick.
  { unfold pick_region, RECT_WIDTH, RECT_HEIGHT. by rewrite Hpx, Hpy. }
  destruct (avg_warmth_bounds image sx sy 50 50 (-255) 255) as (v & Hv & Hrange);
    [lia..|done|done|lia|lia| |].
  - intros i j p _ _ Hp. unfold image.get_pixel in Hp.
    destruct (_ <? 0); [done|].
    apply list_elem_of_lookup_2 in Hp.
    rewrite Forall_forall in Hbytes. specialize (Hbytes p Hp). lia.
  - by exists sx, sy, v.
Qed.

(** ** Instances *)

Lemma ramp_ascending : ascending (list ramp).
Proof.
  intros [|[|i]] x y Hx Hy; [|done..].
  injection Hx as <-. injection Hy as <-. by vm_compute.
Qed.

Lemma spent_holds : holds spent spent_list.
Proof.
  split.
  - simpl. split; [done|]. eexists. split; [by vm_compute|]. done.
  - by apply (bool_decide_unpack _).
Qed.

Lemma load_bp_file_envelope_witness :
  Forall (λ line, is_Some (decimal.sscanf_ff line)) (file_lines drop_file) ∧
  list drop_envelope = stored <$> omap decimal.sscanf_ff (file_lines drop_file) ∧
  len drop_envelope = Z.of_nat (length (file_lines drop_file)) ∧
  ascending (list drop_envelope) ∧
  (∀ b, head (list drop_envelope) = Some b → (time b == 0)%Q) ∧
  (∀ b, last (list drop_envelope) = Some b → maxtime drop_envelope = time b).
Proof.
  apply (load_bp_file_envelope decimal.sscanf_ff 0%Q drop_file drop_envelope).
  by vm_compute.
Defined.

Lemma load_bp_file_empty_witness :
  load_bp_file decimal.sscanf_ff 0 EmptyString =
    Loaded {| list := []; maxtime := 0 |} ∧
  (load_bp_file decimal.sscanf_ff 0 EmptyString =
     Loaded {| list := []; maxtime := 0 |} →
   EmptyString = EmptyString).
Proof.
  destruct (load_bp_file_empty decimal.sscanf_ff 0%Q) as [Hempty Honly].
  split; [exact Hempty|].
  intros Hload.
  exact (Honly EmptyString {| list := []; maxtime := 0 |} Hload eq_refl).
Defined.

Lemma get_timeval_interpolates_witness :
  ∃ v, get_timeval ramp 5 = {| printed := None; returned := Amp v |} ∧
       (v == 0 + (1 - 0) * ((5 - 0) / (10 - 0)))%Q ∧
       ((0 <= 1)%Q → (0 <= v <= 1)%Q) ∧
       ((1 <= 0)%Q → (1 <= v <= 0)%Q) ∧
       ((5 == 0)%Q → (v == 0)%Q).
Proof.
  apply (get_timeval_interpolates ramp 5%Q 0
           (mkBreakpoint 0 0) (mkBreakpoint 10 1)).
  - exact ramp_ascending.
  - reflexivity.
  - reflexivity.
  - by vm_compute.
  - by vm_compute.
  - by vm_compute.
Defined.

Lemma oscil_tick_end_of_voice_witness :
  out_of_range (ticked 3 fading_voice) = false ∧
  (oscil_tick (ticked 3 fading_voice)).2 = Garbage.
Proof.
  apply (oscil_tick_end_of_voice decimal.sscanf_ff 0%Q drop_file
           (ticked 3 fading_voice)).
  - by vm_compute.
  - by vm_compute.
  - by vm_compute.
  - by vm_compute.
  - by vm_compute.
  - by vm_compute.
Defined.



Lemma oscil_expired_stays_witness :
  oscil_expired (ticked 5 (ticked 2 short_voice)) = true ∧
  (oscil_tick (ticked 5 (ticked 2 short_voice))).2 = Amp 0 ∧
  index (ticked 5 (ticked 2 short_voice)) = index (ticked 2 short_voice) ∧
  inc (ticked 5 (ticked 2 short_voice)) = inc (ticked 2 short_voice) ∧
  curr_t (ticked 5 (ticked 2 short_voice)) = curr_t (ticked 2 short_voice).
Proof.
  apply (oscil_expired_stays (ticked 2 short_voice) 5).
  - by vm_compute.
  - by vm_compute.
  - by vm_compute.
Defined.

Lemma ticked_index_bounds_witness :
  0 <= index (ticked 1200 (square_voice 440 5)) <= 48000.
Proof.
  apply (ticked_index_bounds (square_voice 440 5) 1200).
  - by vm_compute.
  - by vm_compute.
  - by vm_compute.
Defined.

Lemma gen_square_tab_shape_witness :
  length (gen_square_tab 7) = Z.to_nat 7 ∧
  (∀ i, 0 <= i < 7 →
        gen_square_tab 7 !! Z.to_nat i =
          Some (if i <? 7 `quot` 2 then 1%Q else (-1)%Q)) ∧
  (foldr Qplus 0 (gen_square_tab 7) == if Z.even 7 then 0 else -1)%Q.
Proof. apply (gen_square_tab_shape 7). lia. Defined.

Lemma gen_triangle_tab_range_witness :
  length (gen_triangle_tab 8) = Z.to_nat 8 ∧
  (∀ i x, gen_triangle_tab 8 !! i = Some x → (-1 <= x <= 1)%Q) ∧
  gen_triangle_tab 8 !! O = Some (-1)%Q ∧
  gen_triangle_tab 8 !! Z.to_nat (8 `quot` 2 - 1) = Some 1%Q ∧
  gen_triangle_tab 8 !! Z.to_nat (8 `quot` 2) = Some 1%Q.
Proof. apply (gen_triangle_tab_range 8). by vm_compute. Defined.

Lemma oscil_list_remove_by_id_witness :
  ∃ h' head',
    oscil_list_remove 3 (mem duo) (osc_list (player duo)) 2 = Some (h', head') ∧
    is_osc_list h' head' ([(1%positive, ticked 2 short_voice)] ++ []) ∧
    h' !! 2%positive = None ∧
    (∀ b, b ∉ duo_list.*1 → h' !! b = mem duo !! b).
Proof.
  destruct (oscil_list_remove_by_id 3 (mem duo) (osc_list (player duo))
              duo_list 2) as [_ H].
  - exact duo_holds.
  - simpl. lia.
  - apply (H [(1%positive, ticked 2 short_voice)] [] 2%positive
             (ticked 2 long_voice)).
    + reflexivity.
    + by vm_compute.
    + apply Forall_cons. split; [by vm_compute|]. apply Forall_nil_2.
Defined.

Lemma oscil_list_add_appends_witness :
  ∃ h' head',
    oscil_list_add 3 (mem duo) (osc_list (player duo)) late_voice =
      Some (h', head') ∧
    is_osc_list h' head' (duo_list ++ [(fresh (dom (mem duo)), late_voice)]) ∧
    mem duo !! fresh (dom (mem duo)) = None ∧
    (duo_list ≠ [] → head' = osc_list (player duo)).
Proof.
  apply (oscil_list_add_appends 3 (mem duo) (osc_list (player duo)) duo_list
           late_voice).
  - exact duo_holds.
  - simpl. lia.
Defined.

Lemma oscil_list_add_remove_witness :
  ∃ h1 head1 h2 head2,
    oscil_list_add 4 (mem duo) (osc_list (player duo)) late_voice =
      Some (h1, head1) ∧
    oscil_list_remove 4 h1 head1 (id late_voice) = Some (h2, head2) ∧
    is_osc_list h2 head2 duo_list ∧
    head2 = osc_list (player duo) ∧
    (∀ b, is_Some (mem duo !! b) → b ∉ duo_list.*1 → h2 !! b = mem duo !! b).
Proof.
  apply (oscil_list_add_remove 4 (mem duo) (osc_list (player duo)) duo_list
           late_voice).
  - exact duo_holds.
  - simpl. lia.
  - apply Forall_cons. split; [by vm_compute|].
    apply Forall_cons. split; [by vm_compute|]. apply Forall_nil_2.
Defined.

Lemma oscil_list_free_all_witness :
  ∃ h', oscil_list_free 3 (mem duo) (osc_list (player duo)) = Some h' ∧
        (∀ a, a ∈ duo_list.*1 → h' !! a = None) ∧
        (∀ b, b ∉ duo_list.*1 → h' !! b = mem duo !! b).
Proof.
  apply (oscil_list_free_all 3 (mem duo) (osc_list (player duo)) duo_list).
  - exact duo_holds.
  - simpl. lia.
Defined.

Lemma free_audio_player_frees_witness :
  ∃ w',
    free_audio_player 3 duo = Some w' ∧
    osc_list (player w') = None ∧
    (∀ a, a ∈ duo_list.*1 → mem w' !! a = None) ∧
    (∀ b, b ∉ duo_list.*1 → mem w' !! b = mem duo !! b) ∧
    ∃ n, trace w' = trace duo ++ repeat Access (S n).
Proof.
  apply (free_audio_player_frees 3 duo duo_list).
  - exact duo_holds.
  - simpl. lia.
Defined.

Lemma audio_player_callback_output_witness :
  ∃ w' out k,
    audio_player_callback 2 spent 3 = Some (w', out) ∧
    trace w' = trace spent ++ Lock :: repeat Access k ++ [Unlock] ∧
    guarded false (Lock :: repeat Access k ++ [Unlock]) = true ∧
    osc_list_lock (player w') = false ∧
    osc_list (player w') = osc_list (player spent) ∧
    outfile (player w') =
      (if write_output (player spent) then outfile (player spent) ++ out
       else outfile (player spent)).
Proof.
  apply (audio_player_callback_output 2 3 spent spent_list).
  - exact spent_holds.
  - simpl. lia.
Defined.

Lemma audio_player_callback_blocks_witness :
  ∃ w1 out1 w2 out2 w12 out12,
    audio_player_callback 3 duo 2 = Some (w1, out1) ∧
    audio_player_callback 3 w1 3 = Some (w2, out2) ∧
    audio_player_callback 3 duo (2 + 3) = Some (w12, out12) ∧
    out12 = out1 ++ out2 ∧
    holds w2 (ticked_list (2 + 3) duo_list) ∧
    holds w12 (ticked_list (2 + 3) duo_list).
Proof.
  apply (audio_player_callback_blocks 3 2 3 duo duo_list).
  - exact duo_holds.
  - simpl. lia.
Defined.


Lemma audio_player_callback_silence_witness :
  ∃ w', audio_player_callback 2 spent 3 = Some (w', replicate 3 (Amp 0)).
Proof.
  apply (audio_player_callback_silence 2 3 spent spent_list).
  - exact spent_holds.
  - simpl. lia.
  - intros x i Hx Hi. apply list_elem_of_singleton in Hx as ->.
    destruct i as [|[|[|i]]]; [by vm_compute..|lia].
Defined.

Lemma synch_update_keeps_audio_witness :
  ∃ w0 out w1 w2,
    audio_player_callback 3 duo 4 = Some (w0, out) ∧
    synch_update 3 duo = Some w1 ∧
    audio_player_callback 3 w1 4 = Some (w2, out).
Proof.
  apply (synch_update_keeps_audio 3 4 duo duo_list).
  - exact duo_holds.
  - exact duo_ids.
  - simpl. lia.
  - intros x Hx _. apply elem_of_cons in Hx as [->|Hx].
    + by vm_compute.
    + apply list_elem_of_singleton in Hx as ->. by vm_compute.
Defined.

Lemma synch_update_idle_witness :
  ∃ w1 w2, synch_update 3 duo = Some w1 ∧ synch_update 3 w1 = Some w2 ∧
           mem w2 = mem w1 ∧ player w2 = player w1.
Proof.
  apply (synch_update_idle 3 duo duo_list).
  - exact duo_holds.
  - exact duo_ids.
  - simpl. lia.
Defined.


Lemma randint_range_witness :
  ∃ v, randint 1234567 3 10 = Some v ∧ 3 <= v < 10.
Proof.
  destruct (randint_range 1234567 3 10) as (H & _ & _).
  - by vm_compute.
  - by vm_compute.
  - by vm_compute.
  - by vm_compute.
  - apply H. lia.
Defined.

Lemma randfloat_range_witness :
  (55 <= randfloat 2147483647 1234567 55 880 <= 880)%Q ∧
  (1234567 = 0 → (randfloat 2147483647 1234567 55 880 == 55)%Q) ∧
  (1234567 = 2147483647 → (randfloat 2147483647 1234567 55 880 == 880)%Q).
Proof.
  apply (randfloat_range 2147483647 1234567 55%Q 880%Q).
  - lia.
  - lia.
  - by vm_compute.
Defined.

Lemma freq_index_range_witness :
  0 <= freq_index (clamp_brightness (3 # 2)) 15 <= 15 ∧
  (freq_index (clamp_brightness (3 # 2)) 15 = 15 ↔ (1 <= 3 # 2)%Q).
Proof.
  apply (freq_index_range (3 # 2)%Q 15).
  - by vm_compute.
  - by vm_compute.
Defined.

Lemma note_amplitude_range_witness :
  (12 # 100 <= note_amplitude (3 # 4) <= note_amplitude (1 # 4))%Q ∧
  (note_amplitude (1 # 4) <= 4 # 10)%Q.
Proof.
  apply (note_amplitude_range (1 # 4)%Q (3 # 4)%Q).
  - by vm_compute.
  - by vm_compute.
  - by vm_compute.
Defined.




Lemma pick_region_inside_witness :
  ∃ sx sy, pick_region 52 51 1234567 7654321 = Some (sx, sy) ∧
           0 <= sx ∧ sx + RECT_WIDTH < 52 ∧
           0 <= sy ∧ sy + RECT_HEIGHT < 51.
Proof.
  destruct (pick_region_inside 52 51 1234567 7654321) as (H & _).
  - by vm_compute.
  - by vm_compute.
  - by vm_compute.
  - by vm_compute.
  - apply H; by vm_compute.
Defined.

Lemma region_warmth_range_witness :
  ∃ sx sy v,
    pick_region (image.width dusk) (image.height dusk) 1234567 7654321 =
      Some (sx, sy) ∧
    image.avg_warmth dusk sx sy RECT_WIDTH RECT_HEIGHT = Some v ∧
    -255 <= v <= 255.
Proof.
  apply (region_warmth_range dusk 1234567 7654321).
  - by vm_compute.
  - by vm_compute.
  - by vm_compute.
  - by vm_compute.
  - by vm_compute.
  - by vm_compute.
  - apply Forall_forall. intros p Hp.
    apply elem_of_replicate in Hp as [-> _]. by vm_compute.
Defined.
